(** * data-ts-file-editor: the parser, the mutation helpers and the
      re-serializer of [src/app/page.tsx]

    The component [FileContentEditor] keeps an array of records in React
    state, loads it from the first exported array literal of an uploaded
    module ([parseDataFile]), edits it ([updateNestedValue], [addItem],
    [deleteItem]) and writes it back as source text ([stringify],
    [downloadFile]).

    Conventions of the embedding.
    - A JavaScript string is a [string]; an [ascii] stands for a UTF-16 code
      unit below 256.
    - A number is an integer [Z] (the values [String] prints in plain
      decimal); an object lists its keys in insertion order (keys that are
      array indices, which JavaScript lists first, are not told apart).
    - A thrown [Error] is the left injection of a sum, carrying its message.
    - React state is a record threaded through a state-and-exception monad;
      a setter that ran before a [throw] keeps its effect.
    - [@babel/parser], [JSON5] and the [Function] constructor are libraries
      of the host, not code of this repository: they are the fields of the
      class [Host]. A theorem holds for every host unless it names what it
      assumes of the host. *)

From Stdlib Require Import ZArith String Ascii List Lia DecimalString DecimalNat.
From stdpp Require Import base option strings list gmap.

Set Warnings "-register-all".
Set Default Proof Using "Type".
Local Open Scope string_scope.

(** ** Strings *)

(** The line feed and the double quote. *)
Definition nl : string := String (ascii_of_nat 10) EmptyString.
Definition dq : string := String (ascii_of_nat 34) EmptyString.

(** [s.repeat(n)]. *)
Fixpoint String_repeat (s : string) (n : nat) : string :=
  match n with
  | O => EmptyString
  | S n' => s +:+ String_repeat s n'
  end.

(** [parts.join(sep)]. *)
Definition Array_join (sep : string) (parts : list string) : string :=
  String.concat sep parts.

(** [s.slice(start, end)] for non-negative integer positions. *)
Definition String_slice (s : string) (start end_ : nat) : string :=
  substring start (end_ - start) s.

(** A string in a boolean position: the empty string is falsy. *)
Definition truthy (s : string) : bool :=
  match s with
  | EmptyString => false
  | String _ _ => true
  end.

(** [String(n)] for an integer [n], and for an array index. *)
Definition Number_toString (n : Z) : string :=
  NilZero.string_of_int (Z.to_int n).

Definition index_toString (i : nat) : string :=
  NilZero.string_of_uint (Nat.to_uint i).

(** ** Values *)

(** What the decoder hands to the editor: the literal values of the data
    model, and [undefined]. An object keeps its entries in the order
    [Object.entries] lists them. *)
Inductive value : Type :=
| Undefined
| Null
| Bool (b : bool)
| Num (n : Z)
| Str (s : string)
| Arr (elems : list value)
| Obj (entries : list (string * value)).

Definition Array_isArray (v : value) : bool :=
  match v with
  | Arr _ => true
  | _ => false
  end.

(** [String(v)]. An array prints its elements joined by commas, [null] and
    [undefined] elements as nothing. *)
Fixpoint String_of (v : value) : string :=
  match v with
  | Undefined => "undefined"
  | Null => "null"
  | Bool true => "true"
  | Bool false => "false"
  | Num n => Number_toString n
  | Str s => s
  | Arr elems =>
      Array_join ","
        (map (fun e => match e with
                       | Undefined | Null => EmptyString
                       | _ => String_of e
                       end) elems)
  | Obj _ => "[object Object]"
  end.

(** [Object.keys(v)]: the keys of an object, the indices of an array or of
    a string, nothing for the other primitives. *)
Definition Object_keys (v : value) : list string :=
  match v with
  | Obj entries => map fst entries
  | Arr elems => map index_toString (seq 0 (length elems))
  | Str s => map index_toString (seq 0 (String.length s))
  | _ => []
  end.

(** ** The re-serializer *)

(** [stringify], lines 169-179. [quotedKeys] is the state variable the
    closure reads. *)
Fixpoint stringify (quotedKeys : bool) (obj : value) (indent : nat) : string :=
  let sp := String_repeat "  " indent in
  let nxt := String_repeat "  " (indent + 1) in
  match obj with
  | Arr elems =>
      match elems with
      | [] => "[]"
      | _ :: _ =>
          "[" +:+ nl
          +:+ Array_join ("," +:+ nl)
                (map (fun v => nxt +:+ stringify quotedKeys v (indent + 1)) elems)
          +:+ nl +:+ sp +:+ "]"
      end
  | Obj entries =>
      "{" +:+ nl
      +:+ Array_join ("," +:+ nl)
            (map (fun kv =>
                    nxt +:+ (if quotedKeys then dq +:+ fst kv +:+ dq else fst kv)
                    +:+ ": " +:+ stringify quotedKeys (snd kv) (indent + 1))
                 entries)
      +:+ nl +:+ sp +:+ "}"
  | Str s => dq +:+ s +:+ dq
  | _ => String_of obj
  end.

(** [downloadFile], lines 181-184: the text written to the file. *)
Definition fileContent (originalImports exportName : string) (quotedKeys : bool)
    (data : list value) : string :=
  (if truthy originalImports then originalImports +:+ nl +:+ nl else EmptyString)
  +:+ "export const " +:+ exportName +:+ " = "
  +:+ stringify quotedKeys (Arr data) 0 +:+ ";" +:+ nl.

(** ** The two regular expressions of the parser *)

Definition isLineTerminator (c : ascii) : bool :=
  let n := nat_of_ascii c in ((n =? 10) || (n =? 13))%nat.

(** [\s] on the code units below 256. *)
Definition isWhiteSpace (c : ascii) : bool :=
  let n := nat_of_ascii c in
  (((9 <=? n) && (n <=? 13)) || (n =? 32) || (n =? 160))%nat.

(** [\w]: letters, digits and the underscore. *)
Definition isWordChar (c : ascii) : bool :=
  let n := nat_of_ascii c in
  (((48 <=? n) && (n <=? 57)) || ((65 <=? n) && (n <=? 90))
   || ((97 <=? n) && (n <=? 122)) || (n =? 95))%nat.

(** The longest prefix of [s] whose characters satisfy [p], and the rest. *)
Fixpoint span (p : ascii -> bool) (s : string) : string * string :=
  match s with
  | EmptyString => (EmptyString, EmptyString)
  | String c r =>
      if p c then let '(a, b) := span p r in (String c a, b)
      else (EmptyString, s)
  end.

(** [s] without the prefix [pre], when it has it. *)
Fixpoint strip_prefix (pre s : string) : option string :=
  match pre, s with
  | EmptyString, _ => Some s
  | String a pre', String b s' =>
      if Ascii.eqb a b then strip_prefix pre' s' else None
  | String _ _, EmptyString => None
  end.

Definition last_is (p : ascii -> bool) (s : string) : bool :=
  match rev (list_ascii_of_string s) with
  | c :: _ => p c
  | [] => false
  end.

(** One attempt of [/^import\s+.*$/m] at a position where [^] holds: the
    match and what follows it. [\s+] and [.*] are greedy and what follows
    each cannot belong to it, so no backtracking occurs. *)
Definition import_match_here (s : string) : option (string * string) :=
  match strip_prefix "import" s with
  | None => None
  | Some r =>
      let '(ws, r1) := span isWhiteSpace r in
      if truthy ws then
        let '(body, r2) := span (fun c => negb (isLineTerminator c)) r1 in
        Some ("import" +:+ ws +:+ body, r2)
      else None
  end.

(** [source.match(/^import\s+.*$/gm) || []]: [bol] says whether [^] holds at
    the current position; the search resumes where the last match ended. *)
Fixpoint import_matches (fuel : nat) (bol : bool) (s : string) : list string :=
  match fuel with
  | O => []
  | S fuel' =>
      match (if bol then import_match_here s else None) with
      | Some (m, rest) => m :: import_matches fuel' (last_is isLineTerminator m) rest
      | None =>
          match s with
          | EmptyString => []
          | String c r => import_matches fuel' (isLineTerminator c) r
          end
      end
  end.

Definition importLines (source : string) : list string :=
  import_matches (S (String.length source)) true source.

(** One attempt of [/"\w+"\s*:/] with the opening quote at the head. *)
Definition quoted_key_here (s : string) : bool :=
  match strip_prefix dq s with
  | None => false
  | Some r =>
      let '(w, r1) := span isWordChar r in
      truthy w &&
      match strip_prefix dq r1 with
      | None => false
      | Some r2 =>
          match strip_prefix ":" (snd (span isWhiteSpace r2)) with
          | Some _ => true
          | None => false
          end
      end
  end.

(** [/"\w+"\s*:/.test(s)], lines 99 and 110. *)
Fixpoint test_quoted_key (s : string) : bool :=
  quoted_key_here s ||
  match s with
  | EmptyString => false
  | String _ r => test_quoted_key r
  end.

(** ** The syntax tree of [@babel/parser] *)

(** The node kinds the scanner tells apart, with the fields it reads. Every
    other kind (imports, functions, blocks, conditionals, calls, ...) is an
    [OtherNode] that keeps its children, so that array literals and exports
    can occur nested inside it. [start] and [end_] are offsets into the source
    text. *)
Inductive Node : Type :=
| ArrayExpression (start end_ : nat) (elements : list Node)
| Identifier (name : string)
| VariableDeclarator (id : Node) (init : option Node)
| VariableDeclaration (declarations : list Node)
| ExportDefaultDeclaration (declaration : Node)
| ExportNamedDeclaration (declaration : option Node)
| OtherNode (type : string) (children : list Node).

(** ** The host libraries *)

(** [parse(source, { sourceType: "module", plugins: ["typescript"],
    errorRecovery: true })] gives [ast.program.body] or throws;
    [JSON5.parse] gives a value or throws; [Function_call body] is
    [new Function(body)()], which runs [body] as a program of the host and
    gives what it returns or what it throws. A call that does not return
    and what a call does besides returning are not modelled. *)
Class Host : Type := {
  parse : string -> string + list Node;
  JSON5_parse : string -> string + value;
  Function_call : string -> string + value
}.

(** ** The source scanner *)

(** The inner loop, lines 78-84, from the pair [(arraySlice,
    foundExportName)] it was entered with: it stops at the first declarator
    that binds an identifier to an array literal. *)
Fixpoint scanDeclarations (source : string) (declarations : list Node)
    (acc : string * string) : string * string :=
  match declarations with
  | [] => acc
  | decl :: rest =>
      match decl with
      | VariableDeclarator (Identifier name) (Some (ArrayExpression start end_ _)) =>
          (String_slice source start end_, name)
      | _ => scanDeclarations source rest acc
      end
  end.

(** The outer loop, lines 68-88, over [ast.program.body]. *)
Fixpoint scanBody (source : string) (body : list Node)
    (acc : string * string) : string * string :=
  match body with
  | [] => acc
  | node :: rest =>
      match node with
      | ExportDefaultDeclaration (ArrayExpression start end_ _) =>
          (String_slice source start end_, "defaultExport")
      | _ =>
          let acc' :=
            match node with
            | ExportNamedDeclaration (Some (VariableDeclaration declarations)) =>
                scanDeclarations source declarations acc
            | _ => acc
            end in
          if truthy (fst acc') then acc' else scanBody source rest acc'
      end
  end.

(** ** React state *)

Record State : Type := mkState {
  originalFileName : string;
  exportName : string;
  data : list value;
  isLoaded : bool;
  error : string;
  originalImports : string;
  quotedKeys : bool;
  newItemIndex : option nat;
  deletingItems : gset nat
}.

(** The state of the first render, lines 37-47. *)
Definition initialState : State :=
  mkState EmptyString "data" [] false EmptyString EmptyString false None ∅.

Definition setExportName (x : string) (st : State) : State :=
  mkState (originalFileName st) x (data st) (isLoaded st) (error st)
    (originalImports st) (quotedKeys st) (newItemIndex st) (deletingItems st).

Definition setData (x : list value) (st : State) : State :=
  mkState (originalFileName st) (exportName st) x (isLoaded st) (error st)
    (originalImports st) (quotedKeys st) (newItemIndex st) (deletingItems st).

Definition setIsLoaded (x : bool) (st : State) : State :=
  mkState (originalFileName st) (exportName st) (data st) x (error st)
    (originalImports st) (quotedKeys st) (newItemIndex st) (deletingItems st).

Definition setError (x : string) (st : State) : State :=
  mkState (originalFileName st) (exportName st) (data st) (isLoaded st) x
    (originalImports st) (quotedKeys st) (newItemIndex st) (deletingItems st).

Definition setOriginalImports (x : string) (st : State) : State :=
  mkState (originalFileName st) (exportName st) (data st) (isLoaded st) (error st)
    x (quotedKeys st) (newItemIndex st) (deletingItems st).

Definition setQuotedKeys (x : bool) (st : State) : State :=
  mkState (originalFileName st) (exportName st) (data st) (isLoaded st) (error st)
    (originalImports st) x (newItemIndex st) (deletingItems st).

Definition setNewItemIndex (x : option nat) (st : State) : State :=
  mkState (originalFileName st) (exportName st) (data st) (isLoaded st) (error st)
    (originalImports st) (quotedKeys st) x (deletingItems st).

Definition setDeletingItems (x : gset nat) (st : State) : State :=
  mkState (originalFileName st) (exportName st) (data st) (isLoaded st) (error st)
    (originalImports st) (quotedKeys st) (newItemIndex st) x.

(** ** Statements that set state and may throw *)

(** A computation ends with a thrown message or with a result, and in both
    cases with the state its setters have produced so far. *)
Definition M (A : Type) : Type := State -> (string + A) * State.

Definition ret {A} (a : A) : M A := fun st => (inr a, st).

Definition bind {A B} (m : M A) (k : A -> M B) : M B :=
  fun st =>
    match m st with
    | (inl msg, st') => (inl msg, st')
    | (inr a, st') => k a st'
    end.

Definition throw {A} (msg : string) : M A := fun st => (inl msg, st).

(** [try { m } catch (e) { handler(e.message) }]. *)
Definition try_catch {A} (m : M A) (handler : string -> M A) : M A :=
  fun st =>
    match m st with
    | (inl msg, st') => handler msg st'
    | (inr a, st') => (inr a, st')
    end.

(** A call into a host library. *)
Definition call {A} (r : string + A) : M A :=
  match r with
  | inl msg => throw msg
  | inr a => ret a
  end.

(** A state setter. *)
Definition update (f : State -> State) : M unit := fun st => (inr tt, f st).

Notation "x <- m ;; k" := (bind m (fun x => k))
  (at level 100, m at next level, right associativity).
Notation "m ;;; k" := (bind m (fun _ => k))
  (at level 100, right associativity).

(** ** The parser *)

(** [safeEval], lines 24-27. *)
Definition safeEval `{Host} (code : string) : string + value :=
  Function_call (dq +:+ "use strict" +:+ dq +:+ "; return (" +:+ code +:+ ");").

(** The elements of a value that passed [Array.isArray]. *)
Definition array_items (v : value) : list value :=
  match v with
  | Arr elems => elems
  | _ => []
  end.

Definition NoExportedArray : string := "No exported array found.".
Definition NotAnArray : string := "Export is not an array".

(** The body of the inner [try], lines 96-101. *)
Definition tryJSON5 `{Host} (arraySlice : string) : M bool :=
  parsed <- call (JSON5_parse ("(" +:+ arraySlice +:+ ")")) ;;
  if negb (Array_isArray parsed) then throw NotAnArray
  else
    update (setData (array_items parsed)) ;;;
    update (setQuotedKeys (test_quoted_key arraySlice)) ;;;
    update (setError EmptyString) ;;;
    ret true.

(** The fallback, lines 107-112. *)
Definition fallbackEval `{Host} (arraySlice : string) : M bool :=
  evaluated <- call (safeEval arraySlice) ;;
  if negb (Array_isArray evaluated) then throw NotAnArray
  else
    update (setData (array_items evaluated)) ;;;
    update (setQuotedKeys (test_quoted_key arraySlice)) ;;;
    update (setError EmptyString) ;;;
    ret true.

(** The two tiers on the text of the array literal, lines 94-112: the inner
    [catch] takes every exception of the inner [try] and falls through. *)
Definition decode `{Host} (arraySlice : string) : M bool :=
  r <- try_catch (b <- tryJSON5 arraySlice ;; ret (Some b)) (fun _ => ret None) ;;
  match r with
  | Some b => ret b
  | None => fallbackEval arraySlice
  end.

(** The body of the outer [try], lines 53-112. The callback is memoised
    with no dependencies, so the [exportName] that [foundExportName] starts
    from is the one of the first render. *)
Definition parseBody `{Host} (source : string) : M bool :=
  update (setOriginalImports (Array_join nl (importLines source))) ;;;
  body <- call (parse source) ;;
  let '(arraySlice, foundExportName) :=
    scanBody source body (EmptyString, exportName initialState) in
  if negb (truthy arraySlice) then throw NoExportedArray
  else
    update (setExportName foundExportName) ;;;
    decode arraySlice.

(** [parseDataFile], lines 51-118. *)
Definition parseDataFile `{Host} (source : string) (st : State) : bool * State :=
  match parseBody source st with
  | (inr b, st') => (b, st')
  | (inl msg, st') => (false, setError ("Failed to parse file: " +:+ msg) st')
  end.

(** ** The mutation helpers on the array of items *)

(** [obj[k] = v] on the entries of an object: an own key keeps its place, a
    new key goes last. *)
Fixpoint Object_set {V} (entries : list (string * V)) (k : string) (v : V)
    : list (string * V) :=
  match entries with
  | [] => [(k, v)]
  | (k', v') :: rest =>
      if String.eqb k' k then (k', v) :: rest
      else (k', v') :: Object_set rest k v
  end.

Definition Object_fromEntries (kvs : list (string * value)) : value :=
  Obj (fold_left (fun acc kv => Object_set acc (fst kv) (snd kv)) kvs []).

(** [x ?? d], where [x] is an element read from an array: reading past the
    end gives [undefined]. *)
Definition nullish_or (x : option value) (d : value) : value :=
  match x with
  | None | Some Undefined | Some Null => d
  | Some v => v
  end.

(** [addItem], lines 149-153. *)
Definition addItem (st : State) : State :=
  let newIndex := length (data st) in
  let prev := data st in
  let item :=
    Object_fromEntries
      (map (fun k => (k, Str EmptyString))
           (Object_keys (nullish_or (prev !! 0) (Obj [])))) in
  setNewItemIndex (Some newIndex) (setData (prev ++ [item]) st).

(** [arr.filter((x, i) => p(x, i))]. *)
Fixpoint Array_filter_from {A} (p : A -> nat -> bool) (i : nat) (l : list A)
    : list A :=
  match l with
  | [] => []
  | x :: rest =>
      if p x i then x :: Array_filter_from p (S i) rest
      else Array_filter_from p (S i) rest
  end.

Definition Array_filter {A} (p : A -> nat -> bool) (l : list A) : list A :=
  Array_filter_from p 0 l.

(** The component together with the timeouts that [deleteItem] has set and
    that have not fired yet, oldest first: they all have the same delay, so
    they fire in the order they were set. Each remembers its [idx]. *)
Record Session : Type := mkSession {
  ui : State;
  timeouts : list nat
}.

(** [deleteItem], lines 155-165, up to the [setTimeout]. *)
Definition deleteItem (idx : nat) (s : Session) : Session :=
  mkSession
    (setDeletingItems ({[idx]} ∪ deletingItems (ui s)) (ui s))
    (timeouts s ++ [idx]).

(** The callback of the oldest timeout, lines 158-163. *)
Definition timeoutFires (s : Session) : Session :=
  match timeouts s with
  | [] => s
  | idx :: rest =>
      let st1 :=
        setData (Array_filter (fun _ i => negb (i =? idx)%nat) (data (ui s))) (ui s) in
      mkSession (setDeletingItems (deletingItems st1 ∖ {[idx]}) st1) rest
  end.

(** The delete button of the card of item [idx], lines 437-455: there is one
    per item, disabled while [idx] is in [deletingItems]. *)
Definition clickDelete (idx : nat) (s : Session) : Session :=
  if bool_decide (idx ∈ deletingItems (ui s)) then s
  else if (idx <? length (data (ui s)))%nat then deleteItem idx s
  else s.

Inductive Event : Type :=
| Click (idx : nat)
| Elapse.

Definition step (s : Session) (e : Event) : Session :=
  match e with
  | Click idx => clickDelete idx s
  | Elapse => timeoutFires s
  end.

Definition run (events : list Event) (s : Session) : Session :=
  fold_left step events s.

(** A session that starts from a document with nothing pending. *)
Definition loaded (items : list value) : Session :=
  mkSession (setIsLoaded true (setData items initialState)) [].

(** ** Property keys and paths *)

(** The array index a property key denotes: [k] is the decimal numeral of
    an integer, without sign or leading zeros. *)
Definition index_of_key (k : string) : option nat :=
  match NilZero.uint_of_string k with
  | Some u =>
      let i := Nat.of_uint u in
      if String.eqb (index_toString i) k then Some i else None
  | None => None
  end.

Fixpoint assoc {V} (k : string) (entries : list (string * V)) : option V :=
  match entries with
  | [] => None
  | (k', v) :: rest => if String.eqb k' k then Some v else assoc k rest
  end.

(** The position of the entry that [assoc k] finds. *)
Fixpoint key_index (k : string) (keys : list string) : option nat :=
  match keys with
  | [] => None
  | k' :: rest =>
      if String.eqb k' k then Some 0
      else match key_index k rest with
           | Some i => Some (S i)
           | None => None
           end
  end.

(** The own property [k] of a value tree. *)
Definition get_tree (t : value) (k : string) : option value :=
  match t with
  | Arr elems =>
      match index_of_key k with
      | Some i => elems !! i
      | None => None
      end
  | Obj entries => assoc k entries
  | _ => None
  end.

(** The subtree of [t] at the path [keys]. *)
Fixpoint walk_tree (t : value) (keys : list string) : option value :=
  match keys with
  | [] => Some t
  | k :: rest =>
      match get_tree t k with
      | Some t' => walk_tree t' rest
      | None => None
      end
  end.

(** Whether [node[k] = v] is an assignment of the model: [node] is an
    object (the key may be new) or an array of which [k] is an index or the
    next one. *)
Definition writable (node : value) (k : string) : Prop :=
  match node with
  | Obj _ => True
  | Arr elems => exists i, index_of_key k = Some i /\ i <= length elems
  | _ => False
  end.

(** [q] is neither on the way from the root to [p] nor below [p]. *)
Definition off_path (q p : list string) : Prop :=
  ~ q `prefix_of` p /\ ~ p `prefix_of` q.

(** ** Objects in memory *)

(** [updateNestedValue] clones the array of items and then assigns inside
    the clone, so its model has objects with identity: a heap of cells, and
    values that are primitives or references to cells.

    The model covers own properties of arrays and plain objects. An access
    that JavaScript answers from a prototype ([length], [map],
    [constructor], ...), an assignment that leaves a hole in an array, and
    every access that throws a [TypeError] in strict mode (a property of
    [undefined] or [null], an assignment to a property of a primitive) all
    give [None]. *)
Module Heap.

(** A location is the index of a cell. *)
Abbreviation loc := nat (only parsing).

Inductive val : Type :=
| VUndefined
| VNull
| VBool (b : bool)
| VNum (n : Z)
| VStr (s : string)
| VRef (l : loc).

Inductive cell : Type :=
| CArr (elems : list val)
| CObj (entries : list (string * val)).

Abbreviation heap := (list cell) (only parsing).

(** The memory of a clone: the cells cloned so far, each with its clone. *)
Abbreviation memory := (gmap nat nat) (only parsing).

(** Clones the values [vs] one after the other with [f]. *)
Fixpoint clone_list (f : memory -> heap -> val -> option (memory * heap * val))
    (m : memory) (h : heap) (vs : list val)
    : option (memory * heap * list val) :=
  match vs with
  | [] => Some (m, h, [])
  | v :: rest =>
      match f m h v with
      | None => None
      | Some (m1, h1, v') =>
          match clone_list f m1 h1 rest with
          | None => None
          | Some (m2, h2, rest') => Some (m2, h2, v' :: rest')
          end
      end
  end.

(** The structured clone of [v] with the memory [m]; [structuredClone] is
    a function of the host, and this is its algorithm on arrays, plain
    objects and primitives. A primitive is itself. A cell that is in the memory is its clone there, so a cell
    reached twice is cloned once and both places get the same clone. For
    another cell a new cell is allocated at the end of the heap and entered
    in the memory, then the properties are cloned in their order, then the
    new cell gets them: a cell that contains itself is cloned as well.
    [fuel] bounds the depth. *)
Fixpoint structuredClone_with (fuel : nat) (m : memory) (h : heap) (v : val)
    {struct fuel} : option (memory * heap * val) :=
  match v with
  | VRef l =>
      match m !! l with
      | Some l' => Some (m, h, VRef l')
      | None =>
          match fuel with
          | O => None
          | S fuel' =>
              match h !! l with
              | None => None
              | Some (CArr elems) =>
                  match clone_list (structuredClone_with fuel')
                          (<[l := length h]> m) (h ++ [CArr []])%list elems with
                  | None => None
                  | Some (m', h', elems') =>
                      Some (m', <[length h := CArr elems']> h', VRef (length h))
                  end
              | Some (CObj entries) =>
                  match clone_list (structuredClone_with fuel')
                          (<[l := length h]> m) (h ++ [CObj []])%list
                          (map snd entries) with
                  | None => None
                  | Some (m', h', vs') =>
                      Some (m', <[length h := CObj (zip (map fst entries) vs')]> h',
                            VRef (length h))
                  end
              end
          end
      end
  | _ => Some (m, h, v)
  end.

(** [structuredClone(v)]: the clone with an empty memory. *)
Definition structuredClone (fuel : nat) (h : heap) (v : val)
    : option (heap * val) :=
  match structuredClone_with fuel ∅ h v with
  | None => None
  | Some (_, h', v') => Some (h', v')
  end.

(** [ref[k]], an own property. *)
Definition get (h : heap) (ref : val) (k : string) : option val :=
  match ref with
  | VRef l =>
      match h !! l with
      | Some (CArr elems) =>
          match index_of_key k with
          | Some i => elems !! i
          | None => None
          end
      | Some (CObj entries) => assoc k entries
      | None => None
      end
  | _ => None
  end.

(** [ref[k] = v]. *)
Definition assign (h : heap) (ref : val) (k : string) (v : val) : option heap :=
  match ref with
  | VRef l =>
      match h !! l with
      | Some (CArr elems) =>
          match index_of_key k with
          | Some i =>
              if (i <? length elems)%nat then Some (<[l := CArr (<[i := v]> elems)]> h)
              else if (i =? length elems)%nat then Some (<[l := CArr (elems ++ [v])%list]> h)
              else None
          | None => None
          end
      | Some (CObj entries) => Some (<[l := CObj (Object_set entries k v)]> h)
      | None => None
      end
  | _ => None
  end.

(** [for (...) ref = ref[path[i]]] over the keys [keys]. *)
Fixpoint walk (h : heap) (ref : val) (keys : list string) : option val :=
  match keys with
  | [] => Some ref
  | k :: rest =>
      match get h ref k with
      | Some r => walk h r rest
      | None => None
      end
  end.

(** [updateNestedValue], lines 140-147: the updater applied to [prev] in
    the heap [h]. The result is the new heap and [next]. An empty [path]
    has [path.at(-1)] undefined, which as a property key is the string
    [undefined]. *)
Definition updateNestedValue (fuel : nat) (itemIdx : nat) (path : list string)
    (value : val) (h : heap) (prev : val) : option (heap * val) :=
  match structuredClone fuel h prev with
  | None => None
  | Some (h1, next) =>
      match get h1 next (index_toString itemIdx) with
      | None => None
      | Some item =>
          match walk h1 item (removelast path) with
          | None => None
          | Some ref =>
              match assign h1 ref (List.last path "undefined") value with
              | None => None
              | Some h2 => Some (h2, next)
              end
          end
      end
  end.


(** A primitive in memory and as a tree. *)
Definition prim (v : val) : option value :=
  match v with
  | VUndefined => Some Undefined
  | VNull => Some Null
  | VBool b => Some (Bool b)
  | VNum n => Some (Num n)
  | VStr s => Some (Str s)
  | VRef _ => None
  end.

(** [repr h v t]: in the heap [h], the value [v] is the tree [t]. *)
Inductive repr (h : heap) : val -> value -> Prop :=
| repr_prim v t :
    prim v = Some t -> repr h v t
| repr_arr l vs ts :
    h !! l = Some (CArr vs) -> repr_list h vs ts -> repr h (VRef l) (Arr ts)
| repr_obj l kvs kts :
    h !! l = Some (CObj kvs) -> map fst kvs = map fst kts ->
    repr_list h (map snd kvs) (map snd kts) -> repr h (VRef l) (Obj kts)
with repr_list (h : heap) : list val -> list value -> Prop :=
| repr_nil : repr_list h [] []
| repr_cons v t vs ts :
    repr h v t -> repr_list h vs ts -> repr_list h (v :: vs) (t :: ts).

(** [owns h lo hi v t]: [v] is the tree [t], every cell of it lies in
    [lo, hi), the cell of a node comes before the cells of its children, and
    the children of a node occupy consecutive disjoint intervals: no cell is
    shared. This is how a clone of a tree lies in the heap. *)
Inductive owns (h : heap) : nat -> nat -> val -> value -> Prop :=
| owns_prim n v t :
    prim v = Some t -> owns h n n v t
| owns_arr l hi vs ts :
    h !! l = Some (CArr vs) -> owns_list h (S l) hi vs ts ->
    owns h l hi (VRef l) (Arr ts)
| owns_obj l hi kvs kts :
    h !! l = Some (CObj kvs) -> map fst kvs = map fst kts ->
    owns_list h (S l) hi (map snd kvs) (map snd kts) ->
    owns h l hi (VRef l) (Obj kts)
with owns_list (h : heap) : nat -> nat -> list val -> list value -> Prop :=
| owns_nil n : owns_list h n n [] []
| owns_cons lo mid hi v t vs ts :
    owns h lo mid v t -> owns_list h mid hi vs ts ->
    owns_list h lo hi (v :: vs) (t :: ts).

(** [shape h v t ls]: [v] is the tree [t], and [ls] lists the cells met on
    the way through it, a cell that is met twice twice. *)
Inductive shape (h : heap) : val -> value -> list nat -> Prop :=
| shape_prim v t :
    prim v = Some t -> shape h v t []
| shape_arr l vs ts ls :
    h !! l = Some (CArr vs) -> shape_list h vs ts ls ->
    shape h (VRef l) (Arr ts) (l :: ls)
| shape_obj l kvs kts ls :
    h !! l = Some (CObj kvs) -> map fst kvs = map fst kts ->
    shape_list h (map snd kvs) (map snd kts) ls ->
    shape h (VRef l) (Obj kts) (l :: ls)
with shape_list (h : heap) : list val -> list value -> list nat -> Prop :=
| shape_nil : shape_list h [] [] []
| shape_cons v t vs ts ls1 ls2 :
    shape h v t ls1 -> shape_list h vs ts ls2 ->
    shape_list h (v :: vs) (t :: ts) (ls1 ++ ls2)%list.

(** A document without sharing: [v] is the tree [t] and no array or object
    of it is reached by two ways. Such are the documents that a literal of
    arrays, objects and primitives evaluates to. *)
Definition unshared (h : heap) (v : val) (t : value) : Prop :=
  exists ls, shape h v t ls /\ NoDup ls.

(** [h1] has the cells of [h] where [h] has them. *)
Definition extends (h h1 : heap) : Prop :=
  forall l c, h !! l = Some c -> h1 !! l = Some c.

Scheme repr_mut := Induction for repr Sort Prop
  with repr_list_mut := Induction for repr_list Sort Prop.

Scheme owns_mut := Induction for owns Sort Prop
  with owns_list_mut := Induction for owns_list Sort Prop.

Scheme shape_mut := Induction for shape Sort Prop
  with shape_list_mut := Induction for shape_list Sort Prop.

Combined Scheme repr_mutind from repr_mut, repr_list_mut.
Combined Scheme owns_mutind from owns_mut, owns_list_mut.
Combined Scheme shape_mutind from shape_mut, shape_list_mut.



End Heap.

(** ** What the claims speak of *)

(** The first answer of a list of attempts. *)
Fixpoint first_some {A} (l : list (option A)) : option A :=
  match l with
  | [] => None
  | Some a :: _ => Some a
  | None :: rest => first_some rest
  end.

(** A declarator that binds an identifier to an array literal: the text of
    the literal and the identifier. *)
Definition declarator_match (source : string) (decl : Node)
    : option (string * string) :=
  match decl with
  | VariableDeclarator (Identifier name) (Some (ArrayExpression start end_ _)) =>
      Some (String_slice source start end_, name)
  | _ => None
  end.

(** A qualifying export: a default export whose declaration is an array
    literal, or a named export of a variable declaration one of whose
    declarators is initialised to an array literal. Only the statement
    itself, its declaration and its declarators are looked at. *)
Definition export_match (source : string) (node : Node)
    : option (string * string) :=
  match node with
  | ExportDefaultDeclaration (ArrayExpression start end_ _) =>
      Some (String_slice source start end_, "defaultExport")
  | ExportNamedDeclaration (Some (VariableDeclaration declarations)) =>
      first_some (map (declarator_match source) declarations)
  | _ => None
  end.

(** The text of every exported array literal is not empty, as it is for the
    positions the parser gives: a literal has at least its two brackets. *)
Definition spans_ok (source : string) (body : list Node) : Prop :=
  Forall (fun node =>
            forall slice name,
              export_match source node = Some (slice, name) ->
              truthy slice = true) body.

Fixpoint string_forall (p : ascii -> bool) (s : string) : bool :=
  match s with
  | EmptyString => true
  | String c r => p c && string_forall p r
  end.

(** What [/"\w+"\s*:/] matches somewhere in [s]: a double quote, one or
    more word characters, a double quote, white space or none, a colon. *)
Definition has_quoted_word_key (s : string) : Prop :=
  exists pre w ws post,
    s = pre +:+ dq +:+ w +:+ dq +:+ ws +:+ ":" +:+ post /\
    w <> EmptyString /\
    string_forall isWordChar w = true /\
    string_forall isWhiteSpace ws = true.

(** The quoting-style inference in the words of the specification: [s]
    contains a double-quoted key immediately followed by a colon. *)
Definition has_quoted_key (s : string) : Prop :=
  exists pre key post,
    s = pre +:+ dq +:+ key +:+ dq +:+ ":" +:+ post /\
    key <> EmptyString /\
    string_forall (fun c => negb (Ascii.eqb c (ascii_of_nat 34))) key = true.

(** The outcome of [parseDataFile] when the body of its [try] ended as [r]. *)
Definition finish (r : (string + bool) * State) : bool * State :=
  match r with
  | (inr b, st') => (b, st')
  | (inl msg, st') => (false, setError ("Failed to parse file: " +:+ msg) st')
  end.


(** The state after a successful decode of [arraySlice] into [items]. *)
Definition decoded (arraySlice : string) (items : list value) (st : State) : State :=
  setError EmptyString
    (setQuotedKeys (test_quoted_key arraySlice) (setData items st)).

(** ** Documents and hosts of the examples *)

(** Two documents: two strings, and one string that holds a quote, a comma,
    a line feed, two spaces and a quote. *)
Definition two_strings : list value := [Str "a"; Str "b"].

Definition one_string : list value :=
  [Str ("a" +:+ dq +:+ "," +:+ nl +:+ "  " +:+ dq +:+ "b")].

(** A host that knows one module: [parse] answers [body] on [source],
    [JSON5.parse] answers [json5] on the parenthesised [literal] and the
    [Function] constructor answers [evaluated] on the wrapped [literal];
    everything else is a syntax error. *)
Definition host_for (source : string) (body : list Node) (literal : string)
    (json5 evaluated : string + value) : Host :=
  {| parse := fun s =>
       if String.eqb s source then inr body else inl "Unexpected token";
     JSON5_parse := fun s =>
       if String.eqb s ("(" +:+ literal +:+ ")") then json5
       else inl "JSON5: invalid character";
     Function_call := fun s =>
       if String.eqb s (dq +:+ "use strict" +:+ dq +:+ "; return (" +:+ literal +:+ ");")
       then evaluated else inl "Unexpected token" |}.

Definition json5_rejects : string + value :=
  inl "JSON5: invalid character '(' at 1:1".

(** [import b from 'b'] and [export const y = [f()];] on two lines: the
    array literal is at offsets 35 to 40, and [f] is not defined. *)
Definition module_undefined_call : string :=
  "import b from 'b'" +:+ nl +:+ "export const y = [f()];".

Definition body_undefined_call : list Node :=
  [ OtherNode "ImportDeclaration" [];
    ExportNamedDeclaration (Some (VariableDeclaration
      [VariableDeclarator (Identifier "y")
         (Some (ArrayExpression 35 40
                  [OtherNode "CallExpression" [Identifier "f"]]))])) ].

Definition host_undefined_call : Host :=
  host_for module_undefined_call body_undefined_call "[f()]"
    json5_rejects (inl "f is not defined").

(** A document loaded earlier. *)
Definition earlier : State :=
  mkState "items.ts" "items" [Obj [("name", Str "A")]] true EmptyString
    "import a from 'a'" false None ∅.

(** [export const a = [Math.max(1, 2)];], whose literal is a call. *)
Definition module_call : string := "export const a = [Math.max(1, 2)];".

Definition body_call : list Node :=
  [ ExportNamedDeclaration (Some (VariableDeclaration
      [VariableDeclarator (Identifier "a")
         (Some (ArrayExpression 17 33 [OtherNode "CallExpression" []]))])) ].

(** Two hosts that differ in what running [Math.max(1, 2)] does. *)
Definition host_call_returns : Host :=
  host_for module_call body_call "[Math.max(1, 2)]" json5_rejects (inr (Arr [Num 2])).

Definition host_call_throws : Host :=
  host_for module_call body_call "[Math.max(1, 2)]" json5_rejects
    (inl "Math.max is not a function").

(** [export default [1];] on a host that evaluates its literal. *)
Definition host_default_export : Host :=
  host_for "export default [1];" [ExportDefaultDeclaration (ArrayExpression 15 18 [])]
    "[1]" json5_rejects (inr (Arr [Num 1])).

(** [export const a = [{"a-b":1}];] *)
Definition literal_dashed_key : string :=
  "[{" +:+ dq +:+ "a-b" +:+ dq +:+ ":1}]".

Definition host_dashed_key : Host :=
  host_for ("export const a = " +:+ literal_dashed_key +:+ ";")
    [ ExportNamedDeclaration (Some (VariableDeclaration
        [VariableDeclarator (Identifier "a")
           (Some (ArrayExpression 17 28 []))])) ]
    literal_dashed_key json5_rejects (inr (Arr [Obj [("a-b", Num 1)]])).

(** A function that returns an array literal, then two exported arrays:
    [function f() { return [0]; }], [export const a = [1];] and
    [export default [2];] on three lines. *)
Definition module_two_exports : string :=
  "function f() { return [0]; }" +:+ nl +:+ "export const a = [1];" +:+ nl
  +:+ "export default [2];".

Definition body_two_exports : list Node :=
  [ OtherNode "FunctionDeclaration"
      [OtherNode "BlockStatement"
         [OtherNode "ReturnStatement" [ArrayExpression 22 25 []]]];
    ExportNamedDeclaration (Some (VariableDeclaration
      [VariableDeclarator (Identifier "a") (Some (ArrayExpression 46 49 []))]));
    ExportDefaultDeclaration (ArrayExpression 66 69 []) ].

Definition host_two_exports : Host :=
  host_for module_two_exports body_two_exports "[1]" json5_rejects
    (inr (Arr [Num 1])).

(** A document of two items in memory, the first with an array of tags,
    and the tree it is. *)
Definition heap_two_items : list Heap.cell :=
  [ Heap.CObj [("name", Heap.VStr "A"); ("tags", Heap.VRef 1)];
    Heap.CArr [Heap.VStr "x"; Heap.VStr "y"];
    Heap.CObj [("name", Heap.VStr "B")];
    Heap.CArr [Heap.VRef 0; Heap.VRef 2] ].

Definition tree_two_items : value :=
  Arr [ Obj [("name", Str "A"); ("tags", Arr [Str "x"; Str "y"])];
        Obj [("name", Str "B")] ].



(** Three items. *)
Definition itemA : value := Obj [("name", Str "A")].
Definition itemB : value := Obj [("name", Str "B")].
Definition itemC : value := Obj [("name", Str "C")].

(** ** The file upload and the download *)

Definition setOriginalFileName (x : string) (st : State) : State :=
  mkState x (exportName st) (data st) (isLoaded st) (error st)
    (originalImports st) (quotedKeys st) (newItemIndex st) (deletingItems st).

(** [c?$]: what is left is nothing, or [c] alone. *)
Definition optional_then_end (c r : string) : bool :=
  String.eqb r EmptyString || String.eqb r c.

(** One attempt of [/\.tsx?$|\.jsx?$/] at a position. There is no [m]
    flag: [$] is the end of the name. *)
Definition source_ext_here (s : string) : bool :=
  match strip_prefix ".ts" s with
  | Some r => optional_then_end "x" r
  | None => false
  end
  ||
  match strip_prefix ".js" s with
  | Some r => optional_then_end "x" r
  | None => false
  end.

(** [/\.tsx?$|\.jsx?$/.test(name)], line 125. *)
Fixpoint test_source_ext (s : string) : bool :=
  source_ext_here s ||
  match s with
  | EmptyString => false
  | String _ r => test_source_ext r
  end.

(** The file of the input element: its name, and the text that
    [readAsText] delivers to [onload]. *)
Record File : Type := mkFile {
  file_name : string;
  file_text : string
}.

Definition FileTypeRejected : string := "Please upload a .ts/.tsx or .js/.jsx file".

(** [handleFileUpload], lines 122-136, with the [onload] callback run at
    once: [file] is [e.target.files?.[0]]. *)
Definition handleFileUpload `{Host} (file : option File) (st : State) : State :=
  match file with
  | None => st
  | Some f =>
      if negb (test_source_ext (file_name f)) then setError FileTypeRejected st
      else
        let st1 := setOriginalFileName (file_name f) st in
        let '(ok, st2) := parseDataFile (file_text f) st1 in
        if ok then setIsLoaded true st2 else st2
  end.

(** [downloadFile], lines 181-191: the name and the content of the file
    that is offered. *)
Definition downloadFile (st : State) : string * string :=
  (if truthy (originalFileName st) then originalFileName st else "data.ts",
   fileContent (originalImports st) (exportName st) (quotedKeys st) (data st)).

(** ** The image test *)

(** [s.includes(sub)]. *)
Fixpoint String_includes (sub s : string) : bool :=
  match strip_prefix sub s with
  | Some _ => true
  | None =>
      match s with
      | EmptyString => false
      | String _ r => String_includes sub r
      end
  end.

(** The letter of the other case is the same letter under the [i] flag;
    among the code units below 256 only the letters [A] to [Z] and [a] to
    [z] are concerned when the pattern has only such letters. *)
Definition ascii_lower (c : ascii) : ascii :=
  let n := nat_of_ascii c in
  if ((65 <=? n) && (n <=? 90))%nat then ascii_of_nat (n + 32) else c.

Fixpoint String_lower (s : string) : string :=
  match s with
  | EmptyString => EmptyString
  | String c r => String (ascii_lower c) (String_lower r)
  end.

(** [s] without a prefix that is [pre] up to the case of letters. *)
Fixpoint strip_prefix_ci (pre s : string) : option string :=
  match pre, s with
  | EmptyString, _ => Some s
  | String a pre', String b s' =>
      if Ascii.eqb (ascii_lower a) (ascii_lower b) then strip_prefix_ci pre' s'
      else None
  | String _ _, EmptyString => None
  end.

(** The alternatives of [(jpe?g|png|gif|webp|svg|bmp|ico)]. *)
Definition image_extensions : list string :=
  ["jpeg"; "jpg"; "png"; "gif"; "webp"; "svg"; "bmp"; "ico"].

(** The optional group and the [$] that end the pattern: nothing, or a
    question mark and characters that are not line terminators, up to the
    end. *)
Definition query_then_end (r : string) : bool :=
  match r with
  | EmptyString => true
  | String c q =>
      Ascii.eqb c "?" && string_forall (fun x => negb (isLineTerminator x)) q
  end.

(** One attempt of the regular expression of line 32 at a position: a dot,
    one of the alternatives in any case, and the optional query. *)
Definition image_ext_here (s : string) : bool :=
  match strip_prefix "." s with
  | None => false
  | Some r =>
      existsb (fun ext =>
                 match strip_prefix_ci ext r with
                 | Some rest => query_then_end rest
                 | None => false
                 end) image_extensions
  end.

Fixpoint test_image_ext (s : string) : bool :=
  image_ext_here s ||
  match s with
  | EmptyString => false
  | String _ r => test_image_ext r
  end.

(** [isImageUrl], lines 30-32. *)
Definition isImageUrl (url : value) : bool :=
  match url with
  | Str s =>
      test_image_ext s || String_includes "image" s || String_includes "img" s
  | _ => false
  end.

(** ** What the further properties speak of *)

(** [s] ends with [e]; [s] contains [sub]. *)
Definition ends_with (e s : string) : Prop := exists pre, s = pre +:+ e.

Definition contains (sub s : string) : Prop :=
  exists pre post, s = pre +:+ sub +:+ post.

(** [s] has, somewhere, a dot, one of the image extensions in any case,
    and then nothing more or a query on the same line. *)
Definition has_image_extension (s : string) : Prop :=
  exists pre e rest,
    s = pre +:+ "." +:+ e +:+ rest /\
    In (String_lower e) image_extensions /\
    (rest = EmptyString \/
     exists q, rest = "?" +:+ q /\
               string_forall (fun x => negb (isLineTerminator x)) q = true).

(** A line of the import header: [import], white space, and the rest of a
    line. *)
Definition import_line (m : string) : Prop :=
  exists ws rest,
    m = "import" +:+ ws +:+ rest /\
    ws <> EmptyString /\
    string_forall isWhiteSpace ws = true /\
    string_forall (fun c => negb (isLineTerminator c)) rest = true.

(** The item that [addItem] appends to the items of [st]. *)
Definition blankItem (st : State) : value :=
  Object_fromEntries
    (map (fun k => (k, Str EmptyString))
         (Object_keys (nullish_or (data st !! 0) (Obj [])))).

(** The clicks of a user who lets each deletion finish before the next. *)
Definition one_by_one (indices : list nat) : list Event :=
  flat_map (fun idx => [Click idx; Elapse]) indices.

(** The pending set is the set of the indices whose timeout has not fired,
    and no index waits twice. *)
Definition pending_ok (s : Session) : Prop :=
  deletingItems (ui s) = list_to_set (timeouts s) /\ NoDup (timeouts s).


(** [node[k] = x] on a tree, where the model has the assignment. *)
Definition set_tree (node : value) (k : string) (x : value) : option value :=
  match node with
  | Obj entries => Some (Obj (Object_set entries k x))
  | Arr elems =>
      match index_of_key k with
      | Some i =>
          if (i <? length elems)%nat then Some (Arr (<[i := x]> elems))
          else if (i =? length elems)%nat then Some (Arr (elems ++ [x])%list)
          else None
      | None => None
      end
  | _ => None
  end.

(** The tree [t] with [x] assigned at the key [k] of the node at the path
    [keys]. *)
Fixpoint write_tree (t : value) (keys : list string) (k : string) (x : value)
    : option value :=
  match keys with
  | [] => set_tree t k x
  | b :: rest =>
      match get_tree t b with
      | None => None
      | Some tb =>
          match write_tree tb rest k x with
          | None => None
          | Some tb' => set_tree t b tb'
          end
      end
  end.

(** * Properties *)

(** ** Strings *)

Lemma append_cons (x : ascii) (a b : string) :
  String x a +:+ b = String x (a +:+ b).
Proof. reflexivity. Qed.

Lemma truthy_true (s : string) : truthy s = true <-> s <> EmptyString.
Proof. destruct s; simpl; split; intros; congruence. Qed.

(** ** The re-serializer *)

Lemma stringify_empty_array (q : bool) (indent : nat) :
  stringify q (Arr []) indent = "[]".
Proof. reflexivity. Qed.

(** A non-empty array: one element per line, one level deeper, separated
    by a comma and a line feed, none after the last. *)
Lemma stringify_array (q : bool) (v : value) (vs : list value) (indent : nat) :
  stringify q (Arr (v :: vs)) indent =
  "[" +:+ nl
  +:+ Array_join ("," +:+ nl)
        (map (fun x => String_repeat "  " (S indent) +:+ stringify q x (S indent))
             (v :: vs))
  +:+ nl +:+ String_repeat "  " indent +:+ "]".
Proof.
  cbn [stringify]. replace (indent + 1) with (S indent) by lia. reflexivity.
Qed.

Lemma stringify_object (q : bool) (entries : list (string * value)) (indent : nat) :
  stringify q (Obj entries) indent =
  "{" +:+ nl
  +:+ Array_join ("," +:+ nl)
        (map (fun kv =>
                String_repeat "  " (S indent)
                +:+ (if q then dq +:+ fst kv +:+ dq else fst kv)
                +:+ ": " +:+ stringify q (snd kv) (S indent)) entries)
  +:+ nl +:+ String_repeat "  " indent +:+ "}".
Proof.
  cbn [stringify]. replace (indent + 1) with (S indent) by lia. reflexivity.
Qed.

(** C8. An empty array is rendered inline as [[]], but an empty object is
    not rendered as [{}]: [stringify] has no test for it, and writes the
    opening brace, two line feeds, the indentation and the closing brace. *)
Theorem stringify_empty_object (q : bool) (indent : nat) :
  stringify q (Arr []) indent = "[]" /\
  stringify q (Obj []) indent =
    "{" +:+ nl +:+ nl +:+ String_repeat "  " indent +:+ "}" /\
  stringify q (Obj []) indent <> "{}".
Proof.
  split; [reflexivity | split; [reflexivity |]].
  intros E. apply (f_equal (String.get 1)) in E. cbv in E. discriminate E.
Qed.

Lemma collision_text (q : bool) :
  stringify q (Arr one_string) 0 = stringify q (Arr two_strings) 0.
Proof. reflexivity. Qed.

(** C1. The round trip through the re-serializer cannot hold for both of
    two documents that a decoder produces: the array of the strings [a] and
    [b], and the array of the one string made of [a], a quote, a comma, a
    line feed, two spaces, a quote and [b]. [stringify] wraps a string in
    quotes without escaping, so both documents are written as the same
    file, and whatever the host libraries do, parsing that file gives back
    at most one of them. *)
Theorem roundtrip_not_both `{Host} (imports name : string) (q : bool) (st : State) :
  fileContent imports name q one_string = fileContent imports name q two_strings /\
  ~ (data (snd (parseDataFile (fileContent imports name q one_string) st)) = one_string /\
     data (snd (parseDataFile (fileContent imports name q two_strings) st)) = two_strings).
Proof.
  assert (E : fileContent imports name q one_string
              = fileContent imports name q two_strings).
  { unfold fileContent. now rewrite collision_text. }
  split; [exact E|].
  rewrite E. intros [H1 H2]. rewrite H1 in H2. discriminate H2.
Qed.

(** ** [addItem] *)

Lemma Object_set_keys {V} (entries : list (string * V)) (k : string) (v : V) (k' : string) :
  k' ∈ map fst (Object_set entries k v) <-> k' ∈ map fst entries \/ k' = k.
Proof.
  induction entries as [|[k0 v0] rest IH]; simpl.
  - rewrite list_elem_of_singleton. split; [auto | intros [Hin|]; [inversion Hin | assumption]].
  - destruct (String.eqb_spec k0 k) as [->|Hne]; simpl.
    + rewrite !elem_of_cons. tauto.
    + rewrite !elem_of_cons, IH. tauto.
Qed.

Lemma Object_set_values {V} (P : V -> Prop) (entries : list (string * V)) (k : string) (v : V) :
  P v -> Forall (fun kv => P (snd kv)) entries ->
  Forall (fun kv => P (snd kv)) (Object_set entries k v).
Proof.
  intros Hv. induction 1 as [|[k0 v0] rest H0 Hrest IH]; simpl.
  - repeat constructor. exact Hv.
  - destruct (String.eqb k0 k); constructor; auto.
Qed.

Lemma Object_set_NoDup {V} (entries : list (string * V)) (k : string) (v : V) :
  NoDup (map fst entries) -> NoDup (map fst (Object_set entries k v)).
Proof.
  induction entries as [|[k0 v0] rest IH]; simpl; intros Hnd.
  - repeat constructor. intros Hin. inversion Hin.
  - inversion Hnd as [|? ? Hnotin Hnd']; subst.
    destruct (String.eqb_spec k0 k) as [->|Hne]; simpl.
    + constructor; assumption.
    + constructor; [|auto].
      rewrite Object_set_keys. intros [Hin| ->]; [auto | congruence].
Qed.

(** The object built from the entries [(k, c)] for the keys [ks], on top
    of the entries [acc]. *)
Lemma fromEntries_const (c : value) (ks : list string) (acc : list (string * value)) :
  let entries :=
    fold_left (fun acc kv => Object_set acc (fst kv) (snd kv))
              (map (fun k => (k, c)) ks) acc in
  (forall k, k ∈ map fst entries <-> k ∈ map fst acc \/ k ∈ ks) /\
  (Forall (fun kv => snd kv = c) acc -> Forall (fun kv => snd kv = c) entries) /\
  (NoDup (map fst acc) -> NoDup (map fst entries)).
Proof.
  revert acc. induction ks as [|k ks IH]; intros acc; simpl.
  - repeat split; auto.
    intros [Hin|Hin]; [assumption | inversion Hin].
  - destruct (IH (Object_set acc k c)) as (Hk & Hv & Hnd).
    repeat split.
    + intros Hin. apply Hk in Hin. rewrite Object_set_keys in Hin.
      rewrite elem_of_cons. tauto.
    + intros Hin. apply Hk. rewrite Object_set_keys.
      rewrite elem_of_cons in Hin. tauto.
    + intros Hacc. apply Hv.
      apply (Object_set_values (fun v => v = c)); auto.
    + intros Hacc. apply Hnd. now apply Object_set_NoDup.
Qed.

(** C10. [addItem] appends one object to the items; the items before it
    are untouched. No key occurs twice in it and every value is the empty
    string. When the first item is an object, the keys of the new item are
    the keys of the entries of the first item. When the first item is an
    array or a string, the keys are its indices; when it is another
    primitive, or when there is no item, the new item has no entries. *)
Theorem addItem_schema (st : State) :
  exists entries,
    data (addItem st) = (data st ++ [Obj entries])%list /\
    NoDup (map fst entries) /\
    Forall (fun kv => snd kv = Str EmptyString) entries /\
    (data st = [] -> entries = []) /\
    (forall first, data st !! 0 = Some (Obj first) ->
       forall k, k ∈ map fst entries <-> k ∈ map fst first) /\
    (forall elems, data st !! 0 = Some (Arr elems) ->
       forall k, k ∈ map fst entries <->
                 exists i, i < length elems /\ k = index_toString i) /\
    (forall s, data st !! 0 = Some (Str s) ->
       forall k, k ∈ map fst entries <->
                 exists i, i < String.length s /\ k = index_toString i) /\
    (forall first, data st !! 0 = Some first ->
       match first with
       | Undefined | Null | Bool _ | Num _ => entries = []
       | _ => True
       end).
Proof.
  unfold addItem, Object_fromEntries.
  set (ks := Object_keys (nullish_or (data st !! 0) (Obj []))).
  destruct (fromEntries_const (Str EmptyString) ks []) as (Hk & Hv & Hnd).
  assert (Hindices : forall n k,
            k ∈ map index_toString (seq 0 n) <->
            exists i, i < n /\ k = index_toString i).
  { intros n k. rewrite list_elem_of_fmap. split.
    - intros (i & -> & Hi). apply elem_of_seq in Hi. exists i. split; [lia | reflexivity].
    - intros (i & Hi & ->). exists i. split; [reflexivity|].
      apply elem_of_seq. lia. }
  eexists. split; [reflexivity|].
  split; [apply Hnd; constructor|].
  split; [apply Hv; constructor|].
  split; [intros Hnil; subst ks; rewrite Hnil; reflexivity|].
  split; [|split; [|split]].
  - intros first Hfirst k.
    assert (Eks : ks = map fst first) by (subst ks; now rewrite Hfirst).
    rewrite Hk, Eks. split; [intros [Hin|Hin]; [inversion Hin | exact Hin] | now right].
  - intros elems Hfirst k. rewrite Hk, <- Hindices.
    assert (Eks : ks = map index_toString (seq 0 (length elems)))
      by (subst ks; now rewrite Hfirst).
    rewrite Eks. split; [intros [Hin|Hin]; [inversion Hin | exact Hin] | now right].
  - intros s Hfirst k. rewrite Hk, <- Hindices.
    assert (Eks : ks = map index_toString (seq 0 (String.length s)))
      by (subst ks; now rewrite Hfirst).
    rewrite Eks. split; [intros [Hin|Hin]; [inversion Hin | exact Hin] | now right].
  - intros first Hfirst. subst ks. rewrite Hfirst.
    destruct first; try exact I; reflexivity.
Qed.

(** ** [deleteItem] *)

Lemma Array_filter_from_delete {A} (idx n : nat) (l : list A) :
  Array_filter_from (fun _ i => negb (i =? idx)%nat) n l =
  if (idx <? n)%nat then l else delete (idx - n) l.
Proof.
  revert n. induction l as [|x l IH]; intros n; simpl.
  - now destruct (idx <? n)%nat.
  - rewrite IH.
    destruct (Nat.eqb_spec n idx) as [->|Hne]; simpl.
    + rewrite Nat.sub_diag. simpl.
      destruct (Nat.ltb_spec idx (S idx)); [|lia].
      destruct (Nat.ltb_spec idx idx); [lia|]. reflexivity.
    + destruct (Nat.ltb_spec idx (S n)), (Nat.ltb_spec idx n); try lia.
      * reflexivity.
      * replace (idx - n) with (S (idx - S n)) by lia. reflexivity.
Qed.

(** The filter of the timeout callback removes the element at [idx], if
    there is one. *)
Lemma Array_filter_delete {A} (idx : nat) (l : list A) :
  Array_filter (fun _ i => negb (i =? idx)%nat) l = delete idx l.
Proof.
  unfold Array_filter. rewrite Array_filter_from_delete.
  simpl. now rewrite Nat.sub_0_r.
Qed.

(** C5, as stated, fails. With three items, the buttons of items 0 and 1
    are clicked before the first delay has elapsed. The pending set holds
    the indices 0 and 1. The first timeout removes item A; item B is now at
    index 0, and the pending index 1 denotes item C. The second timeout
    removes index 1: item C goes, which nobody clicked, and item B stays.
    With two items, after the first timeout the pending set still holds
    index 1, which no longer exists, and the second timeout removes
    nothing. *)
Lemma deleteItem_two_pending :
  let s := run [Click 0; Click 1; Elapse; Elapse] (loaded [itemA; itemB; itemC]) in
  let s1 := run [Click 0; Click 1; Elapse] (loaded [itemA; itemB]) in
  data (ui s) = [itemB] /\
  data (ui s) <> [itemC] /\
  data (ui s1) = [itemB] /\
  1 ∈ deletingItems (ui s1) /\
  ~ 1 < length (data (ui s1)) /\
  data (ui (step s1 Elapse)) = [itemB].
Proof.
  intros s s1.
  assert (Hs : data (ui s) = [itemB]) by (vm_compute; reflexivity).
  assert (Hs1 : data (ui s1) = [itemB]) by (vm_compute; reflexivity).
  assert (Hd : deletingItems (ui s1) = {[1]}) by (vm_compute; reflexivity).
  split; [exact Hs|].
  split; [rewrite Hs; discriminate|].
  split; [exact Hs1|].
  split; [rewrite Hd; set_solver|].
  split; [rewrite Hs1; simpl; lia|].
  vm_compute. reflexivity.
Qed.

(** C5, amended. [deleteItem] tracks the item by its index. When no other
    deletion is pending, a click on the button of item [idx] puts [idx] in
    the pending set, and when the delay has elapsed the item at [idx] is
    gone, the items before it keep their index, the items after it move
    down by one, and [idx] has left the pending set and no timeout
    remains. *)
Theorem deleteItem_single (s : Session) (idx : nat) :
  timeouts s = [] ->
  idx ∉ deletingItems (ui s) ->
  idx < length (data (ui s)) ->
  let s1 := run [Click idx] s in
  let s2 := run [Click idx; Elapse] s in
  deletingItems (ui s1) = {[idx]} ∪ deletingItems (ui s) /\
  data (ui s1) = data (ui s) /\
  data (ui s2) = delete idx (data (ui s)) /\
  length (data (ui s2)) = pred (length (data (ui s))) /\
  (forall i, i < idx -> data (ui s2) !! i = data (ui s) !! i) /\
  (forall i, idx <= i -> data (ui s2) !! i = data (ui s) !! S i) /\
  deletingItems (ui s2) = deletingItems (ui s) /\
  timeouts s2 = [].
Proof.
  intros Ht Hnot Hlt. simpl.
  unfold clickDelete.
  rewrite bool_decide_eq_false_2 by assumption.
  destruct (Nat.ltb_spec idx (length (data (ui s)))) as [_|]; [|lia].
  unfold timeoutFires, deleteItem. simpl. rewrite Ht. simpl.
  rewrite Array_filter_delete.
  split; [reflexivity|].
  split; [reflexivity|].
  split; [reflexivity|].
  split; [rewrite length_delete; [lia | now apply lookup_lt_is_Some_2]|].
  split; [intros i Hi; now apply list_lookup_delete_lt|].
  split; [intros i Hi; now apply list_lookup_delete_ge|].
  split; [|reflexivity].
  apply set_eq. intros x.
  rewrite elem_of_difference, elem_of_union, !elem_of_singleton.
  split; [tauto|]. intros Hx. split; [tauto|]. intros ->. contradiction.
Qed.

(** C5, amended, on three items: the first is deleted alone. *)
Lemma deleteItem_single_witness :
  let s := loaded [itemA; itemB; itemC] in
  data (ui (run [Click 0; Elapse] s)) = [itemB; itemC] /\
  deletingItems (ui (run [Click 0; Elapse] s)) = deletingItems (ui s).
Proof.
  assert (H0 : 0 ∉ deletingItems (ui (loaded [itemA; itemB; itemC]))).
  { simpl. apply not_elem_of_empty. }
  assert (H1 : 0 < length (data (ui (loaded [itemA; itemB; itemC])))).
  { simpl. lia. }
  pose proof (deleteItem_single (loaded [itemA; itemB; itemC]) 0 eq_refl H0 H1)
    as (_ & _ & Hd & _ & _ & _ & Hp & _).
  split; [exact Hd | exact Hp].
Defined.

(** ** The control flow of the parser *)

Lemma tryJSON5_cases `{Host} (arraySlice : string) (st : State) :
  tryJSON5 arraySlice st =
  match JSON5_parse ("(" +:+ arraySlice +:+ ")") with
  | inr (Arr items) => (inr true, decoded arraySlice items st)
  | inr _ => (inl NotAnArray, st)
  | inl diagnostic => (inl diagnostic, st)
  end.
Proof.
  unfold tryJSON5, bind, call.
  destruct (JSON5_parse ("(" +:+ arraySlice +:+ ")")) as [msg|[]]; reflexivity.
Qed.

Lemma fallbackEval_cases `{Host} (arraySlice : string) (st : State) :
  fallbackEval arraySlice st =
  match safeEval arraySlice with
  | inr (Arr items) => (inr true, decoded arraySlice items st)
  | inr _ => (inl NotAnArray, st)
  | inl diagnostic => (inl diagnostic, st)
  end.
Proof.
  unfold fallbackEval, bind, call.
  destruct (safeEval arraySlice) as [msg|[]]; reflexivity.
Qed.

(** The inner [catch] takes what the first tier throws, [NotAnArray]
    included, and the second tier starts from the state the first tier was
    given. *)
Lemma decode_cases `{Host} (arraySlice : string) (st : State) :
  decode arraySlice st =
  match JSON5_parse ("(" +:+ arraySlice +:+ ")") with
  | inr (Arr items) => (inr true, decoded arraySlice items st)
  | _ => fallbackEval arraySlice st
  end.
Proof.
  unfold decode, bind, try_catch. rewrite tryJSON5_cases.
  destruct (JSON5_parse ("(" +:+ arraySlice +:+ ")")) as [msg|[]]; reflexivity.
Qed.

Lemma parseDataFile_cases `{Host} (source : string) (st : State) :
  parseDataFile source st =
  let st1 := setOriginalImports (Array_join nl (importLines source)) st in
  match parse source with
  | inl diagnostic => (false, setError ("Failed to parse file: " +:+ diagnostic) st1)
  | inr body =>
      let found := scanBody source body (EmptyString, exportName initialState) in
      if truthy (fst found) then
        finish (decode (fst found) (setExportName (snd found) st1))
      else (false, setError ("Failed to parse file: " +:+ NoExportedArray) st1)
  end.
Proof.
  unfold parseDataFile, parseBody, bind, update, call.
  destruct (parse source) as [msg|body]; [reflexivity|].
  simpl.
  destruct (scanBody source body (EmptyString, "data")) as [slice name].
  simpl. destruct (truthy slice); reflexivity.
Qed.

(** ** The source scanner *)

Lemma first_some_None {A B} (f : A -> option B) (l : list A) :
  Forall (fun x => f x = None) l -> first_some (map f l) = None.
Proof.
  induction 1 as [|x l Hx _ IH]; simpl; [reflexivity|]. now rewrite Hx.
Qed.

Lemma first_some_first {A B} (f : A -> option B) (pre post : list A) (x : A) (b : B) :
  Forall (fun y => f y = None) pre -> f x = Some b ->
  first_some (map f (pre ++ x :: post)) = Some b.
Proof.
  intros Hpre Hx. induction Hpre as [|y pre Hy _ IH]; simpl.
  - now rewrite Hx.
  - now rewrite Hy.
Qed.

(** The inner loop stops at the first declarator that qualifies. *)
Lemma scanDeclarations_first (source : string) (declarations : list Node)
    (acc : string * string) :
  scanDeclarations source declarations acc =
  match first_some (map (declarator_match source) declarations) with
  | Some r => r
  | None => acc
  end.
Proof.
  induction declarations as [|decl rest IH]; simpl; [reflexivity|].
  destruct decl as [| | id init | | | |]; simpl; try exact IH.
  destruct id as [|name| | | | |]; simpl; try exact IH.
  destruct init as [init|]; simpl; try exact IH.
  destruct init; simpl; try exact IH. reflexivity.
Qed.

(** The outer loop stops at the first statement that qualifies. *)
Lemma scanBody_first (source : string) (body : list Node) (acc : string * string) :
  spans_ok source body -> truthy (fst acc) = false ->
  scanBody source body acc =
  match first_some (map (export_match source) body) with
  | Some r => r
  | None => acc
  end.
Proof.
  intros Hok Hacc. induction Hok as [|node rest Hnode _ IH]; simpl; [reflexivity|].
  assert (Hskip : export_match source node = None ->
                  (if truthy (fst acc) then acc else scanBody source rest acc)
                  = match first_some (map (export_match source) rest) with
                    | Some r => r
                    | None => acc
                    end).
  { intros _. rewrite Hacc. exact IH. }
  destruct node as [| | | |decl|decl|]; simpl; try (now apply Hskip).
  - destruct decl; simpl; try (now apply Hskip). reflexivity.
  - destruct decl as [decl|]; simpl; try (now apply Hskip).
    destruct decl as [| | |declarations| | |]; simpl; try (now apply Hskip).
    rewrite scanDeclarations_first.
    simpl in Hnode.
    destruct (first_some (map (declarator_match source) declarations))
      as [[slice name]|] eqn:E.
    + simpl. now rewrite (Hnode slice name eq_refl).
    + rewrite Hacc. exact IH.
Qed.

(** C7. The scanner looks at the statements of the module body in source
    order and takes the first that is a default export of an array literal
    or a named export of a variable declaration with a declarator
    initialised to an array literal: the export name becomes that
    identifier (or [defaultExport]) and the text of that literal is what is
    decoded, whatever follows. A statement that is not an export never
    qualifies, whatever it contains, nor does an export of something that
    only contains an array literal. When no statement qualifies the parser
    fails with the message of [NoExportedArray]. *)
Theorem scanner_first_export `{Host} (source : string) (body : list Node) (st : State) :
  parse source = inr body ->
  spans_ok source body ->
  let st1 := setOriginalImports (Array_join nl (importLines source)) st in
  (forall pre node post arraySlice name,
     body = (pre ++ node :: post)%list ->
     Forall (fun n => export_match source n = None) pre ->
     export_match source node = Some (arraySlice, name) ->
     parseDataFile source st = finish (decode arraySlice (setExportName name st1))) /\
  (Forall (fun n => export_match source n = None) body ->
     parseDataFile source st =
       (false, setError ("Failed to parse file: " +:+ NoExportedArray) st1)) /\
  (forall type children init name,
     export_match source (OtherNode type children) = None /\
     export_match source (VariableDeclaration children) = None /\
     export_match source (ExportDefaultDeclaration (OtherNode type children)) = None /\
     export_match source (ExportNamedDeclaration (Some (OtherNode type children))) = None /\
     declarator_match source
       (VariableDeclarator (Identifier name) (Some (OtherNode type init))) = None).
Proof.
  intros Hparse Hok st1.
  assert (Hrun : parseDataFile source st =
                 match first_some (map (export_match source) body) with
                 | Some (arraySlice, name) =>
                     finish (decode arraySlice (setExportName name st1))
                 | None =>
                     (false, setError ("Failed to parse file: " +:+ NoExportedArray) st1)
                 end).
  { rewrite parseDataFile_cases. cbv zeta. rewrite Hparse.
    rewrite (scanBody_first source body (EmptyString, _) Hok eq_refl).
    destruct (first_some (map (export_match source) body)) as [[slice name]|] eqn:E.
    - assert (Ht : truthy slice = true).
      { clear -E Hok. induction Hok as [|node rest Hnode _ IH]; simpl in E; [discriminate|].
        destruct (export_match source node) as [[s n]|] eqn:En.
        - inversion E; subst. exact (Hnode _ _ eq_refl).
        - auto. }
      simpl. rewrite Ht. reflexivity.
    - reflexivity. }
  split; [|split].
  - intros pre node post arraySlice name -> Hpre Hnode.
    rewrite Hrun. now rewrite (first_some_first _ pre post node _ Hpre Hnode).
  - intros Hnone. rewrite Hrun. now rewrite (first_some_None _ _ Hnone).
  - intros. repeat split; reflexivity.
Qed.

(** C7 on a module with a nested array literal and two exported arrays:
    the named export, which comes first, is taken. *)
Lemma scanner_first_export_witness :
  @parse host_two_exports module_two_exports = inr body_two_exports /\
  spans_ok module_two_exports body_two_exports /\
  @parseDataFile host_two_exports module_two_exports initialState =
    (true, decoded "[1]" [Num 1] (setExportName "a" initialState)).
Proof.
  assert (Hp : @parse host_two_exports module_two_exports = inr body_two_exports)
    by reflexivity.
  assert (Hok : spans_ok module_two_exports body_two_exports).
  { unfold spans_ok, body_two_exports.
    repeat constructor; intros slice name E; simpl in E; inversion E; reflexivity. }
  split; [exact Hp|]. split; [exact Hok|].
  destruct (@scanner_first_export host_two_exports module_two_exports
              body_two_exports initialState Hp Hok) as (Hfirst & _ & _).
  rewrite (Hfirst
             [OtherNode "FunctionDeclaration"
                [OtherNode "BlockStatement"
                   [OtherNode "ReturnStatement" [ArrayExpression 22 25 []]]]]
             (ExportNamedDeclaration (Some (VariableDeclaration
                [VariableDeclarator (Identifier "a") (Some (ArrayExpression 46 49 []))])))
             [ExportDefaultDeclaration (ArrayExpression 66 69 [])]
             "[1]" "a" eq_refl).
  - reflexivity.
  - repeat constructor.
  - reflexivity.
Defined.

(** ** The outcomes of the decoder *)




(** C2, as stated, fails: two hosts that agree on the parser and on the
    first tier and differ only in what running [Math.max(1, 2)] does give
    two different outcomes for the same module. The literal is a call, the
    decoder hands it to the host to run, and accepts what comes back. *)
Lemma fallback_outcome_depends_on_host :
  @parse host_call_returns = @parse host_call_throws /\
  @JSON5_parse host_call_returns = @JSON5_parse host_call_throws /\
  @parseDataFile host_call_returns module_call initialState =
    (true, decoded "[Math.max(1, 2)]" [Num 2] (setExportName "a" initialState)) /\
  fst (@parseDataFile host_call_throws module_call initialState) = false.
Proof.
  split; [reflexivity|]. split; [reflexivity|]. split; reflexivity.
Qed.

(** C2, amended. Whenever the first tier does not give an array, the second
    tier has the host build a function from the text of the literal, after
    [use strict] in quotes and inside [return (...)], and run it; nothing
    restricts the text. An array that comes back is the document, a value
    that is not an array fails with [NotAnArray], and what the host throws
    is the diagnostic of the failure. *)
Theorem fallback_runs_literal_on_host `{Host} (arraySlice : string) (st : State) :
  (forall items, JSON5_parse ("(" +:+ arraySlice +:+ ")") <> inr (Arr items)) ->
  decode arraySlice st =
  match Function_call
          (dq +:+ "use strict" +:+ dq +:+ "; return (" +:+ arraySlice +:+ ");") with
  | inr (Arr items) => (inr true, decoded arraySlice items st)
  | inr _ => (inl NotAnArray, st)
  | inl diagnostic => (inl diagnostic, st)
  end.
Proof.
  intros Hnot. rewrite decode_cases.
  destruct (JSON5_parse ("(" +:+ arraySlice +:+ ")")) as [msg|[]];
    try apply fallbackEval_cases.
  now destruct (Hnot elems).
Qed.

(** C2, amended, on the literal that is a call. *)
Lemma fallback_runs_literal_on_host_witness :
  (forall items,
     @JSON5_parse host_call_returns ("(" +:+ "[Math.max(1, 2)]" +:+ ")")
     <> inr (Arr items)) /\
  @decode host_call_returns "[Math.max(1, 2)]" initialState =
    (inr true, decoded "[Math.max(1, 2)]" [Num 2] initialState).
Proof.
  assert (Hnot : forall items,
            @JSON5_parse host_call_returns ("(" +:+ "[Math.max(1, 2)]" +:+ ")")
            <> inr (Arr items)).
  { intros items. simpl. discriminate. }
  split; [exact Hnot|].
  rewrite (@fallback_runs_literal_on_host host_call_returns _ initialState Hnot).
  reflexivity.
Defined.

(** C3, as stated, fails. A module is uploaded that imports [b] and
    exports the array [[f()]] as [y], which the decoder rejects. The parser
    answers false, and the import header and the export name are those of
    the rejected module: so it is from the state of the first render, and so
    it is from the state of a document loaded earlier, with the import line
    of [a] and the export name [items]. *)
Lemma failed_load_overwrites_header :
  let r := @parseDataFile host_undefined_call module_undefined_call earlier in
  let r0 := @parseDataFile host_undefined_call module_undefined_call initialState in
  fst r = false /\
  error (snd r) = "Failed to parse file: f is not defined" /\
  originalImports (snd r) = "import b from 'b'" /\
  originalImports (snd r) <> originalImports earlier /\
  exportName (snd r) = "y" /\
  exportName (snd r) <> exportName earlier /\
  fst r0 = false /\
  originalImports (snd r0) <> originalImports initialState /\
  exportName (snd r0) <> exportName initialState.
Proof.
  split; [reflexivity|]. split; [reflexivity|]. split; [reflexivity|].
  split; [discriminate|]. split; [reflexivity|]. split; [discriminate|].
  split; [reflexivity|]. split; discriminate.
Qed.

(** C3, amended. When the parser answers false, the items and
    [quotedKeys] are those of the document loaded before, and so are the
    file name, the loaded flag, the new-item index and the pending set. The
    import header is that of the rejected module; the export name is kept
    when the module could not be parsed or had no exported array, and is
    that of the matched export when the decoder failed. The error is the
    message of the failure. *)
Theorem failed_load_keeps_items `{Host} (source : string) (st : State) :
  fst (parseDataFile source st) = false ->
  let st' := snd (parseDataFile source st) in
  data st' = data st /\
  quotedKeys st' = quotedKeys st /\
  originalFileName st' = originalFileName st /\
  isLoaded st' = isLoaded st /\
  newItemIndex st' = newItemIndex st /\
  deletingItems st' = deletingItems st /\
  originalImports st' = Array_join nl (importLines source) /\
  (exists diagnostic, error st' = "Failed to parse file: " +:+ diagnostic) /\
  (exportName st' = exportName st \/
   exists body,
     parse source = inr body /\
     truthy (fst (scanBody source body (EmptyString, exportName initialState))) = true /\
     exportName st' = snd (scanBody source body (EmptyString, exportName initialState))).
Proof.
  rewrite parseDataFile_cases. cbv zeta.
  destruct (parse source) as [msg|body].
  - intros _. simpl. repeat split; eauto.
  - set (found := scanBody source body (EmptyString, exportName initialState)).
    destruct (truthy (fst found)) eqn:Et.
    + rewrite decode_cases, fallbackEval_cases.
      destruct (JSON5_parse ("(" +:+ fst found +:+ ")")) as [msg|[]];
        destruct (safeEval (fst found)) as [msg'|[]];
        simpl; intros Hf; try discriminate Hf;
        (split; [reflexivity|]); (split; [reflexivity|]); (split; [reflexivity|]);
        (split; [reflexivity|]); (split; [reflexivity|]); (split; [reflexivity|]);
        (split; [reflexivity|]); (split; [eexists; reflexivity|]);
        right; exists body; auto.
    + intros _. simpl. repeat split; eauto.
Qed.

(** C3, amended, on the rejected module, after a document was loaded. *)
Lemma failed_load_keeps_items_witness :
  fst (@parseDataFile host_undefined_call module_undefined_call earlier) = false /\
  data (snd (@parseDataFile host_undefined_call module_undefined_call earlier))
    = data earlier.
Proof.
  assert (Hf : fst (@parseDataFile host_undefined_call module_undefined_call earlier)
               = false) by reflexivity.
  split; [exact Hf|].
  exact (proj1 (@failed_load_keeps_items host_undefined_call
                  module_undefined_call earlier Hf)).
Defined.

(** ** The inference of the quoting style *)

Lemma span_split (p : ascii -> bool) (s : string) :
  s = fst (span p s) +:+ snd (span p s) /\
  string_forall p (fst (span p s)) = true.
Proof.
  induction s as [|c r [IH1 IH2]]; simpl; [split; reflexivity|].
  destruct (p c) eqn:Ec; [|split; reflexivity].
  destruct (span p r) as [a b]. simpl in *. rewrite Ec, IH2.
  split; [now rewrite IH1 at 1 | reflexivity].
Qed.

(** A greedy run stops exactly where the next character is not in the
    class. *)
Lemma span_append (p : ascii -> bool) (w r : string) :
  string_forall p w = true ->
  match r with
  | EmptyString => True
  | String c _ => p c = false
  end ->
  span p (w +:+ r) = (w, r).
Proof.
  intros Hw Hr. induction w as [|c w IH].
  - destruct r as [|c r]; simpl; [reflexivity | now rewrite Hr].
  - simpl in Hw. apply andb_true_iff in Hw as [Hc Hw].
    rewrite append_cons. simpl. rewrite Hc, (IH Hw). reflexivity.
Qed.

Lemma strip_prefix_Some (pre s r : string) :
  strip_prefix pre s = Some r <-> s = pre +:+ r.
Proof.
  revert s. induction pre as [|a pre IH]; intros s; simpl.
  - split; [intros [= ->] | intros ->]; reflexivity.
  - destruct s as [|b s]; [split; discriminate|].
    rewrite append_cons.
    destruct (Ascii.eqb_spec a b) as [->|Hne].
    + rewrite IH. split; [intros -> | intros [= ->]]; reflexivity.
    + split; [discriminate | intros [= -> _]; congruence].
Qed.

Lemma quoted_key_here_spec (s : string) :
  quoted_key_here s = true <->
  exists w ws post,
    s = dq +:+ w +:+ dq +:+ ws +:+ ":" +:+ post /\
    w <> EmptyString /\
    string_forall isWordChar w = true /\
    string_forall isWhiteSpace ws = true.
Proof.
  unfold quoted_key_here. split.
  - destruct (strip_prefix dq s) as [r|] eqn:E0; [|discriminate].
    apply strip_prefix_Some in E0.
    destruct (span_split isWordChar r) as [Hr Hw].
    destruct (span isWordChar r) as [w r1]. simpl in Hr, Hw.
    intros Hb. apply andb_true_iff in Hb as [Ht Hb].
    destruct (strip_prefix dq r1) as [r2|] eqn:E1; [|discriminate].
    apply strip_prefix_Some in E1.
    destruct (span_split isWhiteSpace r2) as [Hr2 Hws].
    destruct (strip_prefix ":" (snd (span isWhiteSpace r2))) as [post|] eqn:E2;
      [|discriminate].
    apply strip_prefix_Some in E2.
    exists w, (fst (span isWhiteSpace r2)), post.
    split; [|split; [now apply truthy_true | split; assumption]].
    rewrite E0, Hr, E1, Hr2 at 1. now rewrite E2.
  - intros (w & ws & post & -> & Hne & Hw & Hws).
    assert (E0 : strip_prefix dq (dq +:+ w +:+ dq +:+ ws +:+ ":" +:+ post)
                 = Some (w +:+ dq +:+ ws +:+ ":" +:+ post))
      by now apply strip_prefix_Some.
    rewrite E0.
    rewrite (span_append isWordChar w (dq +:+ ws +:+ ":" +:+ post) Hw)
      by reflexivity.
    assert (E1 : strip_prefix dq (dq +:+ ws +:+ ":" +:+ post)
                 = Some (ws +:+ ":" +:+ post))
      by now apply strip_prefix_Some.
    rewrite E1.
    rewrite (span_append isWhiteSpace ws (":" +:+ post) Hws) by reflexivity.
    simpl. apply truthy_true in Hne. now rewrite Hne.
Qed.

Lemma test_quoted_key_unfold (s : string) :
  test_quoted_key s =
  quoted_key_here s ||
  match s with
  | EmptyString => false
  | String _ r => test_quoted_key r
  end.
Proof. destruct s; reflexivity. Qed.

(** The matcher finds what the regular expression denotes. *)
Lemma test_quoted_key_spec (s : string) :
  test_quoted_key s = true <-> has_quoted_word_key s.
Proof.
  unfold has_quoted_word_key. split.
  - induction s as [|c r IH].
    + simpl. discriminate.
    + intros Hb. simpl in Hb. apply orb_true_iff in Hb as [Hb|Hb].
      * apply quoted_key_here_spec in Hb as (w & ws & post & E & Hrest).
        exists EmptyString, w, ws, post. split; [exact E | exact Hrest].
      * destruct (IH Hb) as (pre & w & ws & post & -> & Hrest).
        exists (String c pre), w, ws, post. split; [reflexivity | exact Hrest].
  - intros (pre & w & ws & post & -> & Hrest).
    induction pre as [|c pre IH].
    + assert (Hb : quoted_key_here (dq +:+ w +:+ dq +:+ ws +:+ ":" +:+ post) = true).
      { apply quoted_key_here_spec. exists w, ws, post. split; [reflexivity | exact Hrest]. }
      change (EmptyString +:+ dq +:+ w +:+ dq +:+ ws +:+ ":" +:+ post)
        with (dq +:+ w +:+ dq +:+ ws +:+ ":" +:+ post).
      rewrite test_quoted_key_unfold. now rewrite Hb.
    + rewrite append_cons, test_quoted_key_unfold, IH. apply orb_true_r.
Qed.

(** C9, as stated, fails: the literal [[{"a-b":1}]] has a double-quoted
    key immediately followed by a colon, the decoder accepts it, and
    [quotedKeys] is false, because the hyphen is not a word character. *)
Lemma dashed_key_not_detected :
  has_quoted_key literal_dashed_key /\
  @parseDataFile host_dashed_key ("export const a = " +:+ literal_dashed_key +:+ ";")
     initialState =
    (true, decoded literal_dashed_key [Obj [("a-b", Num 1)]]
             (setExportName "a" initialState)) /\
  quotedKeys
    (snd (@parseDataFile host_dashed_key
            ("export const a = " +:+ literal_dashed_key +:+ ";") initialState))
  = false.
Proof.
  split; [|split; reflexivity].
  exists "[{", "a-b", "1}]". split; [reflexivity|]. split; [discriminate | reflexivity].
Qed.

(** C9, amended. When the decoder accepts the literal, by either tier,
    [quotedKeys] is the answer of the one test both tiers apply, and it is
    true exactly when the literal contains a double quote, one or more word
    characters (letters, digits, underscore), a double quote, white space
    or none, and a colon. *)
Theorem quotedKeys_inferred `{Host} (arraySlice : string) (st st' : State) (b : bool) :
  decode arraySlice st = (inr b, st') ->
  quotedKeys st' = test_quoted_key arraySlice /\
  (quotedKeys st' = true <-> has_quoted_word_key arraySlice).
Proof.
  intros Hd.
  assert (Hq : quotedKeys st' = test_quoted_key arraySlice).
  { rewrite decode_cases, fallbackEval_cases in Hd.
    destruct (JSON5_parse ("(" +:+ arraySlice +:+ ")")) as [msg|[]];
      try (injection Hd as _ <-; reflexivity);
      destruct (safeEval arraySlice) as [msg'|[]];
      try discriminate Hd; injection Hd as _ <-; reflexivity. }
  split; [exact Hq|]. rewrite Hq. apply test_quoted_key_spec.
Qed.

(** C9, amended, on the literal with the dashed key. *)
Lemma quotedKeys_inferred_witness :
  @decode host_dashed_key literal_dashed_key initialState =
    (inr true, decoded literal_dashed_key [Obj [("a-b", Num 1)]] initialState) /\
  ~ has_quoted_word_key literal_dashed_key.
Proof.
  assert (Hd : @decode host_dashed_key literal_dashed_key initialState =
               (inr true, decoded literal_dashed_key [Obj [("a-b", Num 1)]] initialState))
    by reflexivity.
  split; [exact Hd|].
  destruct (@quotedKeys_inferred host_dashed_key _ _ _ _ Hd) as [_ Hiff].
  intros Hk. apply Hiff in Hk. discriminate Hk.
Defined.

(** ** [updateNestedValue] *)

Module HeapProofs.
Import Heap.
Local Open Scope list_scope.

Lemma index_of_key_Some (k : string) (i : nat) :
  index_of_key k = Some i -> k = index_toString i.
Proof.
  unfold index_of_key. destruct (NilZero.uint_of_string k) as [u|]; [|discriminate].
  destruct (String.eqb_spec (index_toString (Nat.of_uint u)) k) as [E|]; [|discriminate].
  intros [= <-]. now symmetry.
Qed.

(** The key that [next[itemIdx]] reads denotes the index [itemIdx]. *)
Lemma index_toString_key (i : nat) : index_of_key (index_toString i) = Some i.
Proof.
  unfold index_of_key, index_toString.
  assert (Hnil : Nat.to_uint i <> Decimal.Nil).
  { intros E. pose proof (Unsigned.of_to i) as Hi. rewrite E in Hi.
    simpl in Hi. subst i. discriminate E. }
  rewrite (NilZero.usu _ Hnil), Unsigned.of_to.
  now rewrite String.eqb_refl.
Qed.

Lemma index_of_key_ne (a b : string) (i j : nat) :
  a <> b -> index_of_key a = Some i -> index_of_key b = Some j -> i <> j.
Proof.
  intros Hne Ha Hb ->. apply index_of_key_Some in Ha, Hb. congruence.
Qed.



Lemma assoc_key_index {V} (k : string) (entries : list (string * V)) :
  assoc k entries =
  match key_index k (map fst entries) with
  | Some i => map snd entries !! i
  | None => None
  end.
Proof.
  induction entries as [|[k' v] rest IH]; simpl; [reflexivity|].
  destruct (String.eqb k' k); [reflexivity|].
  rewrite IH. now destruct (key_index k (map fst rest)).
Qed.

Lemma assoc_Object_set_eq {V} (entries : list (string * V)) (k : string) (v : V) :
  assoc k (Object_set entries k v) = Some v.
Proof.
  induction entries as [|[k' v'] rest IH]; simpl.
  - now rewrite String.eqb_refl.
  - destruct (String.eqb k' k) eqn:E; simpl; rewrite E; [reflexivity | exact IH].
Qed.

Lemma assoc_Object_set_ne {V} (entries : list (string * V)) (k a : string) (v : V) :
  a <> k -> assoc a (Object_set entries k v) = assoc a entries.
Proof.
  intros Hne. induction entries as [|[k' v'] rest IH]; simpl.
  - destruct (String.eqb_spec k a); [congruence | reflexivity].
  - destruct (String.eqb_spec k' k) as [->|Hk]; simpl.
    + destruct (String.eqb_spec k a); [congruence | reflexivity].
    + now rewrite IH.
Qed.

(** *** Representation in a larger or a modified heap *)

Lemma owns_le (h : heap) :
  (forall lo hi v t, owns h lo hi v t -> lo <= hi) /\
  (forall lo hi vs ts, owns_list h lo hi vs ts -> lo <= hi).
Proof. apply owns_mutind; intros; lia. Qed.

(** The cells of the interval are all that a representation reads. *)
Lemma owns_agree (h h' : heap) :
  (forall lo hi v t, owns h lo hi v t ->
     (forall l, lo <= l < hi -> h' !! l = h !! l) -> owns h' lo hi v t) /\
  (forall lo hi vs ts, owns_list h lo hi vs ts ->
     (forall l, lo <= l < hi -> h' !! l = h !! l) -> owns_list h' lo hi vs ts).
Proof.
  apply owns_mutind.
  - intros n v t Hp _. now constructor.
  - intros lo l vs ts Hl Hvs IH Hag.
    apply (proj2 (owns_le h)) in Hvs as Hle.
    apply owns_arr with vs.
    + rewrite Hag by lia. exact Hl.
    + apply IH. intros l' Hl'. apply Hag. lia.
  - intros lo l kvs kts Hl Hk Hvs IH Hag.
    apply (proj2 (owns_le h)) in Hvs as Hle.
    apply owns_obj with kvs; [|exact Hk|].
    + rewrite Hag by lia. exact Hl.
    + apply IH. intros l' Hl'. apply Hag. lia.
  - intros n _. constructor.
  - intros lo mid hi v t vs ts Hv IHv Hvs IHvs Hag.
    apply (proj1 (owns_le h)) in Hv as Hle1.
    apply (proj2 (owns_le h)) in Hvs as Hle2.
    apply owns_cons with mid.
    + apply IHv. intros l Hl. apply Hag. lia.
    + apply IHvs. intros l Hl. apply Hag. lia.
Qed.

Lemma owns_list_length (h : heap) (lo hi : nat) (vs : list val) (ts : list value) :
  owns_list h lo hi vs ts -> length vs = length ts.
Proof. induction 1; simpl; congruence. Qed.

(** A child and its siblings: the child lies inside the interval of the
    list and every other child lies in an interval disjoint from its
    own. *)
Lemma owns_list_child (h : heap) (lo hi : nat) (vs : list val) (ts : list value)
    (j : nat) (tb : value) :
  owns_list h lo hi vs ts -> ts !! j = Some tb ->
  exists vb lob hib,
    vs !! j = Some vb /\ owns h lob hib vb tb /\ lo <= lob /\ hib <= hi /\
    forall i ta, i <> j -> ts !! i = Some ta ->
      exists va loa hia,
        vs !! i = Some va /\ owns h loa hia va ta /\ lo <= loa /\ hia <= hi /\
        (hia <= lob \/ hib <= loa).
Proof.
  intros Hl. revert j tb. induction Hl as [n|lo mid hi v t vs ts Hv Hvs IH]; intros j tb Hj.
  - discriminate.
  - apply (proj1 (owns_le h)) in Hv as Hle1.
    apply (proj2 (owns_le h)) in Hvs as Hle2.
    destruct j as [|j]; simpl in Hj.
    + injection Hj as <-. exists v, lo, mid.
      split; [reflexivity|]. split; [exact Hv|]. split; [lia|]. split; [lia|].
      intros [|i] ta Hij Hi; [congruence|]. simpl in Hi.
      destruct (IH i ta Hi) as (va & loa & hia & Ha & Hoa & ? & ? & _).
      exists va, loa, hia. repeat (split; [assumption || lia|]). lia.
    + destruct (IH j tb Hj) as (vb & lob & hib & Hb & Hob & ? & ? & Hsib).
      exists vb, lob, hib.
      split; [exact Hb|]. split; [exact Hob|]. split; [lia|]. split; [lia|].
      intros [|i] ta Hij Hi; simpl in Hi.
      * injection Hi as <-. exists v, lo, mid.
        split; [reflexivity|]. split; [exact Hv|]. split; [lia|]. split; [lia|]. lia.
      * destruct (Hsib i ta ltac:(congruence) Hi) as (va & loa & hia & ? & ? & ? & ? & ?).
        exists va, loa, hia. repeat (split; [assumption || lia|]). assumption.
Qed.


Lemma prim_not_node (v : val) (t : value) (k : string) :
  prim v = Some t -> get_tree t k = None.
Proof. destruct v; simpl; intros [= <-]; reflexivity. Qed.






Lemma off_path_cons_eq (a : string) (q p : list string) :
  off_path (a :: q) (a :: p) -> off_path q p.
Proof.
  intros [H1 H2]. split; intros Hp; [apply H1 | apply H2]; now apply prefix_cons.
Qed.

Lemma off_path_nil (p : list string) : ~ off_path [] p.
Proof. intros [H1 _]. apply H1, prefix_nil. Qed.

Lemma off_path_last (a k : string) (q : list string) :
  off_path (a :: q) [k] -> a <> k.
Proof. intros [_ H2] ->. apply H2. apply prefix_cons, prefix_nil. Qed.



Lemma extends_app (h h1 ext : heap) : extends h h1 -> extends h (h1 ++ ext).
Proof. intros He l c Hl. apply lookup_app_l_Some. now apply He. Qed.

Lemma owns_app (h ext : heap) lo hi v t :
  owns h lo hi v t -> hi <= length h -> owns (h ++ ext) lo hi v t.
Proof.
  intros Ho Hhi. apply (proj1 (owns_agree h _) _ _ _ _ Ho).
  intros l Hl. apply lookup_app_l. lia.
Qed.

Lemma owns_list_app (h ext : heap) lo hi vs ts :
  owns_list h lo hi vs ts -> hi <= length h -> owns_list (h ++ ext) lo hi vs ts.
Proof.
  intros Ho Hhi. apply (proj2 (owns_agree h _) _ _ _ _ Ho).
  intros l Hl. apply lookup_app_l. lia.
Qed.

Lemma map_fst_zip {A B} (ks : list A) (vs : list B) :
  length ks = length vs -> map fst (zip ks vs) = ks.
Proof.
  revert vs. induction ks as [|k ks IH]; intros [|v vs]; simpl; try discriminate.
  - reflexivity.
  - intros [= Hlen]. now rewrite IH.
Qed.

Lemma map_snd_zip {A B} (ks : list A) (vs : list B) :
  length ks = length vs -> map snd (zip ks vs) = vs.
Proof.
  revert vs. induction ks as [|k ks IH]; intros [|v vs]; simpl; try discriminate.
  - reflexivity.
  - intros [= Hlen]. now rewrite IH.
Qed.

(** *** The clone of a document without sharing *)

Lemma shape_repr (h : heap) :
  (forall v t ls, shape h v t ls -> repr h v t) /\
  (forall vs ts ls, shape_list h vs ts ls -> repr_list h vs ts).
Proof.
  apply shape_mutind.
  - intros v t Hp. now constructor.
  - intros l vs ts ls Hl _ IH. now apply repr_arr with vs.
  - intros l kvs kts ls Hl Hk _ IH. now apply repr_obj with kvs.
  - constructor.
  - intros v t vs ts ls1 ls2 _ IHv _ IHvs. now constructor.
Qed.

Lemma unshared_repr (h : heap) (v : val) (t : value) :
  unshared h v t -> repr h v t.
Proof. intros (ls & Hs & _). exact (proj1 (shape_repr h) v t ls Hs). Qed.

Lemma shape_extends (h h' : heap) :
  extends h h' ->
  (forall v t ls, shape h v t ls -> shape h' v t ls) /\
  (forall vs ts ls, shape_list h vs ts ls -> shape_list h' vs ts ls).
Proof.
  intros Hext. apply shape_mutind.
  - intros v t Hp. now constructor.
  - intros l vs ts ls Hl _ IH. apply shape_arr with vs; [now apply Hext | exact IH].
  - intros l kvs kts ls Hl Hk _ IH.
    apply shape_obj with kvs; [now apply Hext | exact Hk | exact IH].
  - constructor.
  - intros v t vs ts ls1 ls2 _ IHv _ IHvs. now constructor.
Qed.

Lemma unshared_extends (h h' : heap) (v : val) (t : value) :
  extends h h' -> unshared h v t -> unshared h' v t.
Proof.
  intros Hext (ls & Hs & Hnd). exists ls.
  split; [exact (proj1 (shape_extends h h' Hext) v t ls Hs) | exact Hnd].
Qed.

Lemma structuredClone_with_prim (fuel : nat) (m : gmap nat nat) (h : heap)
    (v : val) (t : value) :
  prim v = Some t -> structuredClone_with fuel m h v = Some (m, h, v).
Proof. destruct v, fuel; simpl; intros Hp; try reflexivity; discriminate. Qed.

(** The new cell of a node gets its properties once they are cloned. *)
Lemma insert_new_cell (h ext : heap) (c0 c : cell) :
  <[length h := c]> ((h ++ [c0]) ++ ext) = h ++ c :: ext.
Proof.
  rewrite <- app_assoc. simpl.
  rewrite <- (Nat.add_0_r (length h)) at 1. now rewrite insert_app_r.
Qed.

(** The children of a node in the heap in which the node has got them. *)
Lemma owns_list_new_cell (h ext : heap) (c0 c : cell) (vs : list val)
    (ts : list value) :
  owns_list ((h ++ [c0]) ++ ext) (length (h ++ [c0]))
    (length ((h ++ [c0]) ++ ext)) vs ts ->
  owns_list (h ++ c :: ext) (S (length h)) (length (h ++ c :: ext)) vs ts.
Proof.
  intros Ho. rewrite <- (insert_new_cell h ext c0 c), length_insert.
  replace (S (length h)) with (length (h ++ [c0]))
    by (rewrite length_app; simpl; lia).
  apply (proj2 (owns_agree _ _) _ _ _ _ Ho).
  intros l Hl. apply list_lookup_insert_ne.
  rewrite length_app in Hl. simpl in Hl. lia.
Qed.

(** With enough fuel the clone of a tree without sharing exists, in any
    heap that still has the cells of the tree and with any memory that has
    none of them: the heap grows at its end, the clone owns the new cells,
    and the memory changes at the cells of the tree only. *)
Lemma structuredClone_with_owns (h : heap) :
  (forall v t ls, shape h v t ls ->
     exists n, forall fuel (m : gmap nat nat) h1,
       n <= fuel -> extends h h1 ->
       (forall l, l ∈ ls -> m !! l = None) -> NoDup ls ->
       exists (m' : gmap nat nat) ext v',
         structuredClone_with fuel m h1 v = Some (m', h1 ++ ext, v') /\
         owns (h1 ++ ext) (length h1) (length (h1 ++ ext)) v' t /\
         (forall l, l ∉ ls -> m' !! l = m !! l)) /\
  (forall vs ts ls, shape_list h vs ts ls ->
     exists n, forall fuel (m : gmap nat nat) h1,
       n <= fuel -> extends h h1 ->
       (forall l, l ∈ ls -> m !! l = None) -> NoDup ls ->
       exists (m' : gmap nat nat) ext vs',
         clone_list (structuredClone_with fuel) m h1 vs = Some (m', h1 ++ ext, vs') /\
         owns_list (h1 ++ ext) (length h1) (length (h1 ++ ext)) vs' ts /\
         (forall l, l ∉ ls -> m' !! l = m !! l)).
Proof.
  apply shape_mutind.
  - intros v t Hp. exists 0. intros fuel m h1 _ _ _ _. exists m, [], v.
    rewrite app_nil_r. split; [now apply structuredClone_with_prim with t|].
    split; [now constructor | reflexivity].
  - intros l vs ts ls Hl _ [n IH]. exists (S n).
    intros [|fuel] m h1 Hfuel Hext Hm Hnd; [lia|].
    apply NoDup_cons in Hnd as [Hl_ls Hnd].
    destruct (IH fuel (<[l := length h1]> m) (h1 ++ [CArr []]) ltac:(lia)
                (extends_app _ _ _ Hext)) as (m' & ext & vs' & Hc & Ho & Hmem);
      [|exact Hnd|].
    { intros l' Hl'. rewrite lookup_insert_ne by (intros ->; contradiction).
      apply Hm. now right. }
    exists m', (CArr vs' :: ext), (VRef (length h1)).
    split; [|split].
    + cbn [structuredClone_with].
      rewrite (Hm l ltac:(left)), (Hext _ _ Hl), Hc.
      now rewrite insert_new_cell.
    + apply owns_arr with vs'; [now apply list_lookup_middle|].
      now apply owns_list_new_cell with (CArr []).
    + intros l' Hl'. rewrite not_elem_of_cons in Hl'. destruct Hl' as [Hne Hl'].
      rewrite (Hmem l' Hl'). now apply lookup_insert_ne.
  - intros l kvs kts ls Hl Hk _ [n IH]. exists (S n).
    intros [|fuel] m h1 Hfuel Hext Hm Hnd; [lia|].
    apply NoDup_cons in Hnd as [Hl_ls Hnd].
    destruct (IH fuel (<[l := length h1]> m) (h1 ++ [CObj []]) ltac:(lia)
                (extends_app _ _ _ Hext)) as (m' & ext & vs' & Hc & Ho & Hmem);
      [|exact Hnd|].
    { intros l' Hl'. rewrite lookup_insert_ne by (intros ->; contradiction).
      apply Hm. now right. }
    exists m', (CObj (zip (map fst kvs) vs') :: ext), (VRef (length h1)).
    assert (Hlen : length (map fst kvs) = length vs').
    { apply owns_list_length in Ho. rewrite Ho, Hk, !length_map. reflexivity. }
    split; [|split].
    + cbn [structuredClone_with].
      rewrite (Hm l ltac:(left)), (Hext _ _ Hl), Hc.
      now rewrite insert_new_cell.
    + apply owns_obj with (zip (map fst kvs) vs').
      * now apply list_lookup_middle.
      * now rewrite map_fst_zip.
      * rewrite map_snd_zip by exact Hlen.
        now apply owns_list_new_cell with (CObj []).
    + intros l' Hl'. rewrite not_elem_of_cons in Hl'. destruct Hl' as [Hne Hl'].
      rewrite (Hmem l' Hl'). now apply lookup_insert_ne.
  - exists 0. intros fuel m h1 _ _ _ _. exists m, [], []. rewrite app_nil_r.
    split; [reflexivity|]. split; [constructor | reflexivity].
  - intros v t vs ts ls1 ls2 _ [n1 IH1] _ [n2 IH2]. exists (max n1 n2).
    intros fuel m h1 Hfuel Hext Hm Hnd.
    apply NoDup_app in Hnd as (Hnd1 & Hdisjoint & Hnd2).
    destruct (IH1 fuel m h1 ltac:(lia) Hext) as (m1 & e1 & v' & Hc1 & Ho1 & Hmem1);
      [|exact Hnd1|].
    { intros l Hl. apply Hm. rewrite elem_of_app. now left. }
    destruct (IH2 fuel m1 (h1 ++ e1) ltac:(lia) (extends_app _ _ _ Hext))
      as (m2 & e2 & vs' & Hc2 & Ho2 & Hmem2); [|exact Hnd2|].
    { intros l Hl. rewrite Hmem1.
      - apply Hm. rewrite elem_of_app. now right.
      - intros Hl1. exact (Hdisjoint l Hl1 Hl). }
    exists m2, (e1 ++ e2), (v' :: vs'). cbn [clone_list].
    rewrite Hc1, Hc2. rewrite app_assoc.
    split; [reflexivity|]. split.
    + apply owns_cons with (length (h1 ++ e1)); [|exact Ho2].
      now apply owns_app.
    + intros l Hl. rewrite elem_of_app in Hl.
      rewrite Hmem2 by tauto. apply Hmem1. tauto.
Qed.

(** [structuredClone] of a document without sharing. *)
Lemma structuredClone_owns (h : heap) (v : val) (t : value) :
  unshared h v t ->
  exists n, forall fuel h1, n <= fuel -> extends h h1 ->
    exists ext v',
      structuredClone fuel h1 v = Some (h1 ++ ext, v') /\
      owns (h1 ++ ext) (length h1) (length (h1 ++ ext)) v' t.
Proof.
  intros (ls & Hs & Hnd).
  destruct (proj1 (structuredClone_with_owns h) v t ls Hs) as [n Hn].
  exists n. intros fuel h1 Hfuel Hext.
  destruct (Hn fuel ∅ h1 Hfuel Hext (fun l _ => lookup_empty l) Hnd)
    as (m' & ext & v' & Hc & Ho & _).
  exists ext, v'. unfold structuredClone. rewrite Hc. split; [reflexivity | exact Ho].
Qed.






Lemma repr_extends (h h' : heap) :
  extends h h' ->
  (forall v t, repr h v t -> repr h' v t) /\
  (forall vs ts, repr_list h vs ts -> repr_list h' vs ts).
Proof.
  intros Hext. apply repr_mutind.
  - intros v t Hp. now constructor.
  - intros l vs ts Hl _ IH. apply repr_arr with vs; [now apply Hext | exact IH].
  - intros l kvs kts Hl Hk _ IH.
    apply repr_obj with kvs; [now apply Hext | exact Hk | exact IH].
  - constructor.
  - intros v t vs ts _ IHv _ IHvs. now constructor.
Qed.


(** The document of the examples has no sharing. *)
Lemma unshared_two_items : unshared heap_two_items (VRef 3) tree_two_items.
Proof.
  eexists. split.
  - eapply shape_arr with [VRef 0; VRef 2]; [reflexivity|].
    eapply shape_cons; [|eapply shape_cons; [|apply shape_nil]].
    + eapply shape_obj with [("name", VStr "A"); ("tags", VRef 1)];
        [reflexivity | reflexivity |].
      simpl. eapply shape_cons; [now apply shape_prim|].
      eapply shape_cons; [|apply shape_nil].
      eapply shape_arr with [VStr "x"; VStr "y"]; [reflexivity|].
      eapply shape_cons; [now apply shape_prim|].
      eapply shape_cons; [now apply shape_prim | apply shape_nil].
    + eapply shape_obj with [("name", VStr "B")]; [reflexivity | reflexivity |].
      simpl. eapply shape_cons; [now apply shape_prim | apply shape_nil].
  - simpl. refine (bool_decide_unpack _ _). vm_compute. exact I.
Qed.




End HeapProofs.

(** * Further properties *)

(** ** The file upload and the download *)

Lemma source_ext_here_spec (s : string) :
  source_ext_here s = true <->
  s = ".ts" \/ s = ".tsx" \/ s = ".js" \/ s = ".jsx".
Proof.
  unfold source_ext_here, optional_then_end. split.
  - intros Hb. apply orb_true_iff in Hb as [Hb|Hb].
    + destruct (strip_prefix ".ts" s) as [r|] eqn:E; [|discriminate].
      apply strip_prefix_Some in E. subst s.
      apply orb_true_iff in Hb as [Hb|Hb]; apply String.eqb_eq in Hb; subst r; auto.
    + destruct (strip_prefix ".js" s) as [r|] eqn:E; [|discriminate].
      apply strip_prefix_Some in E. subst s.
      apply orb_true_iff in Hb as [Hb|Hb]; apply String.eqb_eq in Hb; subst r; auto.
  - intros [->|[->|[->| ->]]]; reflexivity.
Qed.

Lemma test_source_ext_unfold (s : string) :
  test_source_ext s =
  source_ext_here s ||
  match s with
  | EmptyString => false
  | String _ r => test_source_ext r
  end.
Proof. destruct s; reflexivity. Qed.

(** The test of the file name accepts the names that end with one of the
    four extensions. *)
Lemma test_source_ext_spec (s : string) :
  test_source_ext s = true <->
  ends_with ".ts" s \/ ends_with ".tsx" s \/ ends_with ".js" s \/ ends_with ".jsx" s.
Proof.
  split.
  - induction s as [|c r IH].
    + simpl. discriminate.
    + rewrite test_source_ext_unfold. intros Hb.
      apply orb_true_iff in Hb as [Hb|Hb].
      * apply source_ext_here_spec in Hb.
        destruct Hb as [E|[E|[E|E]]]; rewrite E;
          [left | right; left | right; right; left | right; right; right];
          exists EmptyString; reflexivity.
      * destruct (IH Hb) as [[p ->]|[[p ->]|[[p ->]|[p ->]]]];
          [left | right; left | right; right; left | right; right; right];
          exists (String c p); reflexivity.
  - assert (Hgo : forall pre e, source_ext_here e = true ->
                                test_source_ext (pre +:+ e) = true).
    { intros pre e He. induction pre as [|c pre IH].
      - change (EmptyString +:+ e) with e.
        rewrite test_source_ext_unfold. now rewrite He.
      - rewrite append_cons, test_source_ext_unfold, IH. apply orb_true_r. }
    intros [[p ->]|[[p ->]|[[p ->]|[p ->]]]]; apply Hgo; reflexivity.
Qed.

Lemma parseDataFile_isLoaded `{Host} (source : string) (st : State) :
  isLoaded (snd (parseDataFile source st)) = isLoaded st /\
  originalFileName (snd (parseDataFile source st)) = originalFileName st.
Proof.
  rewrite parseDataFile_cases. cbv zeta.
  destruct (parse source) as [msg|body]; [split; reflexivity|].
  set (found := scanBody source body (EmptyString, exportName initialState)).
  destruct (truthy (fst found)); [|split; reflexivity].
  rewrite decode_cases, fallbackEval_cases.
  destruct (JSON5_parse ("(" +:+ fst found +:+ ")")) as [msg|[]];
    try (split; reflexivity);
    destruct (safeEval (fst found)) as [msg'|[]]; split; reflexivity.
Qed.

(** A file whose name does not end with [.ts], [.tsx], [.js] or [.jsx] is
    not read: the only effect is the message about the file type. In
    particular the items, the export name and the import header of a
    document on screen stay, and the parser is not run. *)
Theorem upload_wrong_extension `{Host} (f : File) (st : State) :
  ~ (ends_with ".ts" (file_name f) \/ ends_with ".tsx" (file_name f) \/
     ends_with ".js" (file_name f) \/ ends_with ".jsx" (file_name f)) ->
  handleFileUpload (Some f) st = setError FileTypeRejected st.
Proof.
  intros Hno. unfold handleFileUpload.
  destruct (test_source_ext (file_name f)) eqn:E; [|reflexivity].
  apply test_source_ext_spec in E. contradiction.
Qed.

(** A name with a dot but another extension. *)
Lemma upload_wrong_extension_witness :
  @handleFileUpload host_two_exports (Some (mkFile "data.json" "[1]")) earlier
  = setError FileTypeRejected earlier.
Proof.
  apply (@upload_wrong_extension host_two_exports (mkFile "data.json" "[1]") earlier).
  intros Hends. apply test_source_ext_spec in Hends. discriminate Hends.
Defined.

(** A file whose name ends with one of the four extensions is parsed. Its
    name becomes the file name of the component before the parser runs, so
    also when the parser fails; the component is loaded afterwards exactly
    when it was loaded before or the parser succeeded; and the download is
    offered under the name of the file, not under the default name. *)
Theorem upload_accepted `{Host} (f : File) (st : State) :
  ends_with ".ts" (file_name f) \/ ends_with ".tsx" (file_name f) \/
  ends_with ".js" (file_name f) \/ ends_with ".jsx" (file_name f) ->
  let r := parseDataFile (file_text f) (setOriginalFileName (file_name f) st) in
  let st' := handleFileUpload (Some f) st in
  st' = (if fst r then setIsLoaded true (snd r) else snd r) /\
  originalFileName st' = file_name f /\
  isLoaded st' = isLoaded st || fst r /\
  fst (downloadFile st') = file_name f.
Proof.
  intros Hends r st'.
  assert (Ht : test_source_ext (file_name f) = true)
    by now apply test_source_ext_spec.
  assert (Hst : st' = (if fst r then setIsLoaded true (snd r) else snd r)).
  { subst st' r. unfold handleFileUpload. rewrite Ht. simpl.
    now destruct (parseDataFile (file_text f) (setOriginalFileName (file_name f) st)). }
  destruct (parseDataFile_isLoaded (file_text f)
              (setOriginalFileName (file_name f) st)) as [Hl Hn].
  fold r in Hl, Hn. simpl in Hl, Hn.
  assert (Hname : originalFileName st' = file_name f).
  { rewrite Hst. now destruct (fst r). }
  split; [exact Hst|]. split; [exact Hname|]. split.
  - rewrite Hst. destruct (fst r); simpl.
    + now rewrite orb_true_r.
    + now rewrite orb_false_r.
  - unfold downloadFile. simpl. rewrite Hname.
    destruct (file_name f) as [|c n]; [|reflexivity].
    discriminate Ht.
Qed.

(** A module whose literal the decoder rejects, under a good name. *)
Lemma upload_accepted_witness :
  let st' := @handleFileUpload host_undefined_call
               (Some (mkFile "items.tsx" module_undefined_call)) initialState in
  originalFileName st' = "items.tsx" /\ isLoaded st' = false /\
  fst (downloadFile st') = "items.tsx".
Proof.
  assert (Hends : ends_with ".ts" "items.tsx" \/ ends_with ".tsx" "items.tsx" \/
                  ends_with ".js" "items.tsx" \/ ends_with ".jsx" "items.tsx").
  { right. left. exists "items". reflexivity. }
  destruct (@upload_accepted host_undefined_call
              (mkFile "items.tsx" module_undefined_call) initialState Hends)
    as (_ & Hn & Hl & Hd).
  split; [exact Hn|]. split; [exact Hl | exact Hd].
Defined.

(** ** The image test *)

Lemma String_includes_unfold (sub s : string) :
  String_includes sub s =
  match strip_prefix sub s with
  | Some _ => true
  | None =>
      match s with
      | EmptyString => false
      | String _ r => String_includes sub r
      end
  end.
Proof. destruct s; reflexivity. Qed.

Lemma String_includes_spec (sub s : string) :
  String_includes sub s = true <-> contains sub s.
Proof.
  unfold contains. split.
  - induction s as [|c r IH]; rewrite String_includes_unfold.
    + destruct (strip_prefix sub EmptyString) as [post|] eqn:E; [|discriminate].
      apply strip_prefix_Some in E. intros _. exists EmptyString, post. exact E.
    + destruct (strip_prefix sub (String c r)) as [post|] eqn:E.
      * apply strip_prefix_Some in E. intros _. exists EmptyString, post. exact E.
      * intros Hb. destruct (IH Hb) as (pre & post & ->).
        exists (String c pre), post. reflexivity.
  - intros (pre & post & ->). induction pre as [|c pre IH].
    + change (EmptyString +:+ sub +:+ post) with (sub +:+ post).
      rewrite String_includes_unfold.
      now rewrite (proj2 (strip_prefix_Some sub (sub +:+ post) post) eq_refl).
    + rewrite append_cons, String_includes_unfold, IH.
      now destruct (strip_prefix sub (String c (pre +:+ sub +:+ post))).
Qed.

Lemma ascii_lower_idem (c : ascii) : ascii_lower (ascii_lower c) = ascii_lower c.
Proof. destruct c as [[] [] [] [] [] [] [] []]; reflexivity. Qed.

Lemma strip_prefix_ci_Some (pre s r : string) :
  strip_prefix_ci pre s = Some r ->
  exists e, s = e +:+ r /\ String_lower e = String_lower pre.
Proof.
  revert s. induction pre as [|a pre IH]; intros s; simpl.
  - intros [= ->]. exists EmptyString. split; reflexivity.
  - destruct s as [|b s]; [discriminate|].
    destruct (Ascii.eqb_spec (ascii_lower a) (ascii_lower b)) as [E|]; [|discriminate].
    intros Hs. destruct (IH s Hs) as (e & -> & He).
    exists (String b e). split; [reflexivity|]. simpl. now rewrite He, E.
Qed.

Lemma strip_prefix_ci_lower (e rest : string) :
  strip_prefix_ci (String_lower e) (e +:+ rest) = Some rest.
Proof.
  induction e as [|c e IH]; [reflexivity|].
  rewrite append_cons. simpl. rewrite ascii_lower_idem, Ascii.eqb_refl. exact IH.
Qed.

Lemma image_extensions_lower (ext : string) :
  In ext image_extensions -> String_lower ext = ext.
Proof.
  intros Hin. repeat (destruct Hin as [<-|Hin]; [reflexivity|]). destruct Hin.
Qed.

Lemma query_then_end_spec (r : string) :
  query_then_end r = true <->
  r = EmptyString \/
  exists q, r = "?" +:+ q /\
            string_forall (fun x => negb (isLineTerminator x)) q = true.
Proof.
  destruct r as [|c q]; simpl.
  - split; auto.
  - split.
    + intros Hb. apply andb_true_iff in Hb as [Hc Hq].
      apply Ascii.eqb_eq in Hc. subst c. right. exists q. split; [reflexivity | exact Hq].
    + intros [E|(q' & E & Hq)]; [discriminate|].
      change ("?" +:+ q') with (String "?" q') in E.
      injection E as Hc Hq'. subst c q'. rewrite Hq. reflexivity.
Qed.

Lemma image_ext_here_spec (s : string) :
  image_ext_here s = true <->
  exists e rest,
    s = "." +:+ e +:+ rest /\
    In (String_lower e) image_extensions /\
    (rest = EmptyString \/
     exists q, rest = "?" +:+ q /\
               string_forall (fun x => negb (isLineTerminator x)) q = true).
Proof.
  unfold image_ext_here. split.
  - destruct (strip_prefix "." s) as [r|] eqn:E; [|discriminate].
    apply strip_prefix_Some in E. subst s.
    intros Hb. apply existsb_exists in Hb as (ext & Hin & Hb).
    destruct (strip_prefix_ci ext r) as [rest|] eqn:Er; [|discriminate].
    apply strip_prefix_ci_Some in Er as (e & -> & He).
    exists e, rest. split; [reflexivity|].
    rewrite He, (image_extensions_lower ext Hin).
    split; [exact Hin | now apply query_then_end_spec].
  - intros (e & rest & -> & Hin & Hq).
    rewrite (proj2 (strip_prefix_Some "." ("." +:+ e +:+ rest) (e +:+ rest)) eq_refl).
    apply existsb_exists. exists (String_lower e). split; [exact Hin|].
    rewrite strip_prefix_ci_lower. now apply query_then_end_spec.
Qed.

Lemma test_image_ext_unfold (s : string) :
  test_image_ext s =
  image_ext_here s ||
  match s with
  | EmptyString => false
  | String _ r => test_image_ext r
  end.
Proof. destruct s; reflexivity. Qed.

Lemma test_image_ext_spec (s : string) :
  test_image_ext s = true <-> has_image_extension s.
Proof.
  unfold has_image_extension. split.
  - induction s as [|c r IH]; rewrite test_image_ext_unfold; intros Hb;
      apply orb_true_iff in Hb as [Hb|Hb]; try discriminate.
    + apply image_ext_here_spec in Hb as (e & rest & E & Hrest).
      exists EmptyString, e, rest. split; [exact E | exact Hrest].
    + destruct (IH Hb) as (pre & e & rest & -> & Hrest).
      exists (String c pre), e, rest. split; [reflexivity | exact Hrest].
  - intros (pre & e & rest & -> & Hrest). induction pre as [|c pre IH].
    + change (EmptyString +:+ "." +:+ e +:+ rest) with ("." +:+ e +:+ rest).
      rewrite test_image_ext_unfold.
      assert (Hh : image_ext_here ("." +:+ e +:+ rest) = true).
      { apply image_ext_here_spec. exists e, rest. split; [reflexivity | exact Hrest]. }
      now rewrite Hh.
    + rewrite append_cons, test_image_ext_unfold, IH. apply orb_true_r.
Qed.

(** What counts as the address of an image: a string that has a dot and one
    of the extensions [jpg], [jpeg], [png], [gif], [webp], [svg], [bmp],
    [ico], in any case, at its end or before a question mark with no line
    break after it; or a string that contains [image]; or a string that
    contains [img]. A value that is not a string never counts. *)
Theorem isImageUrl_spec (url : value) :
  isImageUrl url = true <->
  exists s, url = Str s /\
            (has_image_extension s \/ contains "image" s \/ contains "img" s).
Proof.
  split.
  - destruct url as [| | | |s| |]; simpl; try discriminate.
    intros Hb. exists s. split; [reflexivity|].
    apply orb_true_iff in Hb as [Hb|Hb]; [apply orb_true_iff in Hb as [Hb|Hb]|].
    + left. now apply test_image_ext_spec.
    + right. left. now apply String_includes_spec.
    + right. right. now apply String_includes_spec.
  - intros (s & -> & [Hs|[Hs|Hs]]); simpl.
    + apply test_image_ext_spec in Hs. now rewrite Hs.
    + apply String_includes_spec in Hs. rewrite Hs. now rewrite orb_true_r.
    + apply String_includes_spec in Hs. rewrite Hs. now rewrite orb_true_r.
Qed.

(** ** Loading a module *)

(** A successful load replaces the document as a whole: the parser found a
    body, the scanner an export with a non-empty literal, one of the two
    tiers an array (the second only when the first gave none), and the
    state is the earlier one with the import header, the export name, the
    items, the quoting style and an empty error all taken from the new
    module. *)
Theorem load_success `{Host} (source : string) (st : State) :
  fst (parseDataFile source st) = true ->
  exists body items,
    parse source = inr body /\
    let found := scanBody source body (EmptyString, exportName initialState) in
    truthy (fst found) = true /\
    (JSON5_parse ("(" +:+ fst found +:+ ")") = inr (Arr items) \/
     (forall its, JSON5_parse ("(" +:+ fst found +:+ ")") <> inr (Arr its)) /\
     safeEval (fst found) = inr (Arr items)) /\
    snd (parseDataFile source st) =
      decoded (fst found) items
        (setExportName (snd found)
           (setOriginalImports (Array_join nl (importLines source)) st)).
Proof.
  rewrite parseDataFile_cases. cbv zeta.
  destruct (parse source) as [msg|body]; [discriminate|].
  intros Hfst. exists body. cbv zeta.
  destruct (scanBody source body (EmptyString, exportName initialState))
    as [slice name]. cbn [fst snd] in *.
  destruct (truthy slice) eqn:Et; [|discriminate].
  rewrite decode_cases, fallbackEval_cases in *.
  destruct (JSON5_parse ("(" +:+ slice +:+ ")")) as [msg|v] eqn:Ej.
  - destruct (safeEval slice) as [msg'|[]] eqn:Ee; try discriminate.
    exists elems. split; [reflexivity|]. split; [reflexivity|].
    split; [|reflexivity]. right. split; [discriminate | reflexivity].
  - destruct v;
      try (destruct (safeEval slice) as [msg'|[]] eqn:Ee; try discriminate;
           exists elems; split; [reflexivity|]; split; [reflexivity|];
           split; [|reflexivity]; right; split; [discriminate | reflexivity]).
    exists elems. split; [reflexivity|]. split; [reflexivity|].
    split; [|reflexivity]. now left.
Qed.

(** The module with a nested array and two exports loads. *)
Lemma load_success_witness :
  exists items,
    data (snd (@parseDataFile host_two_exports module_two_exports earlier)) = items /\
    exportName (snd (@parseDataFile host_two_exports module_two_exports earlier)) = "a".
Proof.
  assert (Ht : fst (@parseDataFile host_two_exports module_two_exports earlier) = true)
    by reflexivity.
  destruct (@load_success host_two_exports module_two_exports earlier Ht)
    as (body & items & Hp & _ & _ & Hs).
  exists items. rewrite Hs.
  injection Hp as <-. split; reflexivity.
Defined.

(** A default export does not come back as a default export. When the
    first qualifying statement of a module is [export default] of an array
    literal and the load succeeds, the file written afterwards declares the
    array as the constant [defaultExport] of a named export, after the
    import header. *)
Theorem default_export_renamed `{Host} (source : string) (st : State)
    (pre post elements : list Node) (start end_ : nat) :
  parse source =
    inr (pre ++ ExportDefaultDeclaration (ArrayExpression start end_ elements) :: post)%list ->
  spans_ok source
    (pre ++ ExportDefaultDeclaration (ArrayExpression start end_ elements) :: post) ->
  Forall (fun n => export_match source n = None) pre ->
  fst (parseDataFile source st) = true ->
  let st' := snd (parseDataFile source st) in
  exportName st' = "defaultExport" /\
  snd (downloadFile st') =
    (if truthy (originalImports st') then originalImports st' +:+ nl +:+ nl
     else EmptyString)
    +:+ "export const defaultExport = "
    +:+ stringify (quotedKeys st') (Arr (data st')) 0 +:+ ";" +:+ nl.
Proof.
  intros Hparse Hok Hpre Hfst st'.
  assert (Hname : exportName st' = "defaultExport").
  { subst st'. revert Hfst. rewrite parseDataFile_cases. cbv zeta. rewrite Hparse.
    rewrite (scanBody_first source _ (EmptyString, _) Hok eq_refl).
    rewrite (first_some_first (export_match source) pre post
               (ExportDefaultDeclaration (ArrayExpression start end_ elements))
               (String_slice source start end_, "defaultExport") Hpre eq_refl).
    cbn [fst snd].
    destruct (truthy (String_slice source start end_)); [|discriminate].
    rewrite decode_cases, fallbackEval_cases.
    destruct (JSON5_parse ("(" +:+ String_slice source start end_ +:+ ")"))
      as [msg|[]];
      try reflexivity;
      destruct (safeEval (String_slice source start end_)) as [msg'|[]];
      try reflexivity; discriminate. }
  split; [exact Hname|].
  unfold downloadFile, fileContent. cbn [snd]. now rewrite Hname.
Qed.

(** The module [export default [1];] on a host that evaluates it. *)
Lemma default_export_renamed_witness :
  exportName
    (snd (@parseDataFile host_default_export "export default [1];" initialState))
  = "defaultExport".
Proof.
  assert (Hp : @parse host_default_export "export default [1];" =
               inr ([] ++ ExportDefaultDeclaration (ArrayExpression 15 18 []) :: [])%list)
    by reflexivity.
  assert (Hok : spans_ok "export default [1];"
                  ([] ++ ExportDefaultDeclaration (ArrayExpression 15 18 []) :: [])).
  { repeat constructor. intros slice name E. simpl in E. inversion E. reflexivity. }
  exact (proj1 (@default_export_renamed host_default_export "export default [1];"
                  initialState [] [] [] 15 18 Hp Hok (List.Forall_nil _) eq_refl)).
Defined.

(** ** The import header *)

Lemma append_assoc (a b c : string) : (a +:+ b) +:+ c = a +:+ (b +:+ c).
Proof.
  induction a as [|x a IH]; [reflexivity|].
  rewrite !append_cons. now rewrite IH.
Qed.

Lemma contains_cons (m : string) (c : ascii) (s : string) :
  contains m s -> contains m (String c s).
Proof. intros (pre & post & ->). exists (String c pre), post. reflexivity. Qed.

Lemma contains_append (m a s : string) : contains m s -> contains m (a +:+ s).
Proof.
  intros (pre & post & ->). exists (a +:+ pre), post. now rewrite append_assoc.
Qed.

(** A match is a line of the header and a prefix of the text it was
    attempted on. *)
Lemma import_match_here_spec (s m rest : string) :
  import_match_here s = Some (m, rest) -> s = m +:+ rest /\ import_line m.
Proof.
  unfold import_match_here.
  destruct (strip_prefix "import" s) as [r|] eqn:E; [|discriminate].
  apply strip_prefix_Some in E.
  destruct (span_split isWhiteSpace r) as [Hr Hws].
  destruct (span isWhiteSpace r) as [ws r1]. cbn [fst snd] in Hr, Hws.
  destruct (truthy ws) eqn:Et; [|discriminate].
  destruct (span_split (fun c => negb (isLineTerminator c)) r1) as [Hr1 Hbody].
  destruct (span (fun c => negb (isLineTerminator c)) r1) as [body r2].
  cbn [fst snd] in Hr1, Hbody.
  intros [= <- <-]. split.
  - rewrite E, Hr, Hr1. now rewrite !append_assoc.
  - exists ws, body. split; [reflexivity|].
    split; [now apply truthy_true|]. split; assumption.
Qed.

Lemma import_matches_spec (fuel : nat) :
  forall bol s,
    Forall (fun m => import_line m /\ contains m s) (import_matches fuel bol s).
Proof.
  induction fuel as [|fuel IH]; intros bol s; simpl; [constructor|].
  assert (Hskip : Forall (fun m => import_line m /\ contains m s)
                    match s with
                    | EmptyString => []
                    | String c r => import_matches fuel (isLineTerminator c) r
                    end).
  { destruct s as [|c r]; [constructor|].
    eapply Forall_impl; [apply IH|]. intros m [Hm Hc].
    split; [exact Hm | now apply contains_cons]. }
  destruct bol; [|exact Hskip].
  destruct (import_match_here s) as [[m rest]|] eqn:E; [|exact Hskip].
  apply import_match_here_spec in E as [-> Hm].
  constructor.
  - split; [exact Hm|]. exists EmptyString, rest. reflexivity.
  - eapply Forall_impl; [apply IH|]. intros m' [Hm' Hc].
    split; [exact Hm' | now apply contains_append].
Qed.

(** Every line of the import header is text of the module, and is
    [import], then white space, then the rest of a line. A module in which
    [import] is never followed by white space has an empty header, and then
    the file written starts with the export. *)
Theorem importLines_are_imports (source : string) :
  Forall (fun m => import_line m /\ contains m source) (importLines source) /\
  (forall name q items,
     importLines source = [] ->
     fileContent (Array_join nl (importLines source)) name q items =
       "export const " +:+ name +:+ " = " +:+ stringify q (Arr items) 0
       +:+ ";" +:+ nl).
Proof.
  split; [apply import_matches_spec|].
  intros name q items ->. reflexivity.
Qed.

(** ** Adding items *)

Lemma blankItem_addItem (st : State) : blankItem (addItem st) = blankItem st.
Proof.
  unfold blankItem, addItem. simpl.
  destruct (data st) as [|x l]; reflexivity.
Qed.

(** [addItem] again and again appends the same blank item each time: the
    keys are read from the first item, which the appended items never
    displace, and on an empty document the first blank item has no keys and
    so have those that follow. After each click the new-item index is the
    index of the item just appended. *)
Theorem addItem_repeated (n : nat) (st : State) :
  data (Nat.iter n addItem st) = (data st ++ replicate n (blankItem st))%list /\
  blankItem (Nat.iter n addItem st) = blankItem st /\
  newItemIndex (Nat.iter (S n) addItem st) = Some (length (data st) + n) /\
  data (Nat.iter (S n) addItem st) !! (length (data st) + n) = Some (blankItem st).
Proof.
  assert (Hiter : forall m,
            data (Nat.iter m addItem st) = (data st ++ replicate m (blankItem st))%list /\
            blankItem (Nat.iter m addItem st) = blankItem st).
  { induction m as [|m [IHd IHb]].
    - split; [simpl; now rewrite app_nil_r | reflexivity].
    - change (Nat.iter (S m) addItem st) with (addItem (Nat.iter m addItem st)).
      split.
      + change (data (addItem (Nat.iter m addItem st)))
          with (data (Nat.iter m addItem st) ++ [blankItem (Nat.iter m addItem st)])%list.
        rewrite IHd, IHb, <- app_assoc.
        now rewrite <- replicate_S_end.
      + now rewrite blankItem_addItem. }
  destruct (Hiter n) as [Hd Hb].
  split; [exact Hd|]. split; [exact Hb|]. split.
  - change (Nat.iter (S n) addItem st) with (addItem (Nat.iter n addItem st)).
    change (newItemIndex (addItem (Nat.iter n addItem st)))
      with (Some (length (data (Nat.iter n addItem st)))).
    rewrite Hd, length_app, length_replicate. reflexivity.
  - rewrite (proj1 (Hiter (S n))).
    rewrite lookup_app_r by lia.
    apply lookup_replicate_2. lia.
Qed.

(** ** Deleting items *)

Lemma step_click (s : Session) (idx : nat) :
  idx ∉ deletingItems (ui s) -> idx < length (data (ui s)) ->
  step s (Click idx) = deleteItem idx s.
Proof.
  intros Hnot Hlt. simpl. unfold clickDelete.
  rewrite bool_decide_eq_false_2 by assumption.
  now destruct (Nat.ltb_spec idx (length (data (ui s)))); [|lia].
Qed.

Lemma step_elapse (s : Session) (idx : nat) (rest : list nat) :
  timeouts s = idx :: rest ->
  step s Elapse =
  mkSession
    (setDeletingItems (deletingItems (ui s) ∖ {[idx]})
       (setData (delete idx (data (ui s))) (ui s)))
    rest.
Proof.
  intros Ht. simpl. unfold timeoutFires. rewrite Ht.
  now rewrite Array_filter_delete.
Qed.

Lemma length_delete_le {A} (i : nat) (l : list A) : length (delete i l) <= length l.
Proof.
  revert i. induction l as [|x l IH]; intros [|i]; simpl; try lia.
  specialize (IH i). lia.
Qed.

Lemma pending_ok_step (s : Session) (e : Event) :
  pending_ok s ->
  pending_ok (step s e) /\ length (data (ui (step s e))) <= length (data (ui s)).
Proof.
  intros [Hset Hnd]. destruct e as [idx|].
  - simpl. unfold clickDelete.
    destruct (bool_decide (idx ∈ deletingItems (ui s))) eqn:Ed;
      [split; [split; assumption | lia]|].
    apply bool_decide_eq_false in Ed.
    destruct (idx <? length (data (ui s)))%nat; [|split; [split; assumption | lia]].
    split; [|simpl; lia]. split; simpl.
    + rewrite Hset. apply set_eq. intros x.
      rewrite elem_of_union, elem_of_singleton, !elem_of_list_to_set, elem_of_app,
        list_elem_of_singleton. tauto.
    + apply NoDup_app. split; [exact Hnd|]. split; [|apply NoDup_singleton].
      intros x Hx Hin. apply list_elem_of_singleton in Hin. subst x.
      apply Ed. rewrite Hset. now apply elem_of_list_to_set.
  - destruct (timeouts s) as [|idx rest] eqn:Et.
    + simpl. unfold timeoutFires. rewrite Et.
      split; [split; rewrite Et; assumption | lia].
    + rewrite (step_elapse s idx rest Et).
      apply NoDup_cons in Hnd as [Hnotin Hnd'].
      split; [|apply length_delete_le]. split; [|exact Hnd'].
      cbn [ui timeouts deletingItems setDeletingItems].
      rewrite Hset. apply set_eq. intros x.
      rewrite elem_of_difference, elem_of_singleton, !elem_of_list_to_set, elem_of_cons.
      split; [tauto|]. intros Hx. split; [tauto|]. intros ->. contradiction.
Qed.

(** Whatever is clicked and whenever the delays elapse, the pending set is
    the set of the indices whose timeout has not fired, and no index waits
    twice; so when every timeout has fired no delete button is left
    disabled. No item is ever added on the way. *)
Theorem pending_set_tracks_timeouts (events : list Event) (s : Session) :
  pending_ok s ->
  pending_ok (run events s) /\
  (timeouts (run events s) = [] -> deletingItems (ui (run events s)) = ∅) /\
  length (data (ui (run events s))) <= length (data (ui s)).
Proof.
  revert s. induction events as [|e events IH]; intros s Hok.
  - simpl. split; [exact Hok|]. split; [|lia].
    intros Ht. destruct Hok as [Hset _]. now rewrite Hset, Ht.
  - change (run (e :: events) s) with (run events (step s e)).
    destruct (pending_ok_step s e Hok) as [Hok' Hlen].
    destruct (IH (step s e) Hok') as (H1 & H2 & H3).
    split; [exact H1|]. split; [exact H2 | lia].
Qed.

(** Three clicks, two of them while a deletion is pending. *)
Lemma pending_set_tracks_timeouts_witness :
  pending_ok (loaded [itemA; itemB; itemC]) /\
  pending_ok (run [Click 0; Click 2; Elapse; Click 0]
                  (loaded [itemA; itemB; itemC])).
Proof.
  assert (Hok : pending_ok (loaded [itemA; itemB; itemC])).
  { split; [reflexivity | constructor]. }
  split; [exact Hok|].
  exact (proj1 (pending_set_tracks_timeouts
                  [Click 0; Click 2; Elapse; Click 0]
                  (loaded [itemA; itemB; itemC]) Hok)).
Defined.

Lemma delete_delete_lt {A} (i j : nat) (l : list A) :
  i < j -> delete j (delete i l) = delete i (delete (S j) l).
Proof.
  revert i j. induction l as [|x l IH]; intros i j Hij; [now destruct i, j|].
  destruct i as [|i], j as [|j]; try lia; simpl.
  - reflexivity.
  - f_equal. apply IH. lia.
Qed.

(** Two deletions pending at once, the button of [i] clicked before that
    of [j]: the first timeout removes the item at [i], the second removes
    whatever is at [j] by then. When [j] is the smaller index that is the
    item whose button was clicked. When [j] is the larger index it is the
    item that followed the one clicked, or no item if there was none. *)
Theorem two_pending_deletions (s : Session) (i j : nat) :
  timeouts s = [] ->
  deletingItems (ui s) = ∅ ->
  i <> j ->
  i < length (data (ui s)) ->
  j < length (data (ui s)) ->
  let s' := run [Click i; Click j; Elapse; Elapse] s in
  data (ui s') = delete j (delete i (data (ui s))) /\
  (i < j -> data (ui s') = delete i (delete (S j) (data (ui s)))) /\
  deletingItems (ui s') = ∅ /\
  timeouts s' = [].
Proof.
  intros Ht Hd Hij Hi Hj s'.
  assert (Hni : i ∉ deletingItems (ui s)) by (rewrite Hd; apply not_elem_of_empty).
  assert (Hnj : j ∉ deletingItems (ui (deleteItem i s))).
  { cbn [ui deleteItem deletingItems setDeletingItems]. rewrite Hd.
    rewrite elem_of_union, elem_of_singleton.
    intros [E|E]; [congruence | now apply not_elem_of_empty in E]. }
  assert (Hs' : s' = mkSession
            (setDeletingItems ((({[j]} ∪ ({[i]} ∪ deletingItems (ui s))) ∖ {[i]}) ∖ {[j]})
               (setData (delete j (delete i (data (ui s)))) (ui s))) []).
  { subst s'. unfold run. cbn [fold_left].
    rewrite (step_click s i Hni Hi).
    rewrite (step_click (deleteItem i s) j Hnj Hj).
    rewrite (step_elapse (deleteItem j (deleteItem i s)) i [j])
      by (cbn [timeouts deleteItem]; rewrite Ht; reflexivity).
    rewrite (step_elapse _ j []) by reflexivity.
    reflexivity. }
  rewrite Hs'. cbn [ui data deletingItems timeouts setDeletingItems setData].
  split; [reflexivity|]. split; [intros Hlt; now apply delete_delete_lt|].
  split; [|reflexivity]. rewrite Hd. apply set_eq. intros x.
  rewrite !elem_of_difference, !elem_of_union, !elem_of_singleton.
  split; [tauto|]. intros Hx. now apply not_elem_of_empty in Hx.
Qed.

(** The two orders on three items. *)
Lemma two_pending_deletions_witness :
  data (ui (run [Click 1; Click 0; Elapse; Elapse] (loaded [itemA; itemB; itemC])))
    = [itemC] /\
  data (ui (run [Click 0; Click 1; Elapse; Elapse] (loaded [itemA; itemB; itemC])))
    = [itemB].
Proof.
  assert (H0 : 0 < length (data (ui (loaded [itemA; itemB; itemC])))) by (simpl; lia).
  assert (H1 : 1 < length (data (ui (loaded [itemA; itemB; itemC])))) by (simpl; lia).
  split.
  - exact (proj1 (two_pending_deletions (loaded [itemA; itemB; itemC]) 1 0
                    eq_refl eq_refl ltac:(discriminate) H1 H0)).
  - exact (proj1 (two_pending_deletions (loaded [itemA; itemB; itemC]) 0 1
                    eq_refl eq_refl ltac:(discriminate) H0 H1)).
Defined.

(** A user who lets each deletion finish before the next click removes
    exactly the items clicked, one after the other, whatever the indices:
    an index past the end has no button and removes nothing. *)
Theorem deletions_one_by_one (indices : list nat) (s : Session) :
  timeouts s = [] ->
  deletingItems (ui s) = ∅ ->
  let s' := run (one_by_one indices) s in
  data (ui s') = fold_left (fun l idx => delete idx l) indices (data (ui s)) /\
  deletingItems (ui s') = ∅ /\
  timeouts s' = [].
Proof.
  revert s. induction indices as [|idx indices IH]; intros s Ht Hd.
  - simpl. auto.
  - change (run (one_by_one (idx :: indices)) s)
      with (run (one_by_one indices) (step (step s (Click idx)) Elapse)).
    cbn [fold_left].
    assert (Hni : idx ∉ deletingItems (ui s)) by (rewrite Hd; apply not_elem_of_empty).
    assert (Hstep : data (ui (step (step s (Click idx)) Elapse))
                    = delete idx (data (ui s)) /\
                    deletingItems (ui (step (step s (Click idx)) Elapse)) = ∅ /\
                    timeouts (step (step s (Click idx)) Elapse) = []).
    { destruct (Nat.lt_ge_cases idx (length (data (ui s)))) as [Hlt|Hge].
      - rewrite (step_click s idx Hni Hlt).
        rewrite (step_elapse (deleteItem idx s) idx [])
          by (cbn [timeouts deleteItem]; rewrite Ht; reflexivity).
        cbn [ui data deletingItems timeouts setDeletingItems setData deleteItem].
        split; [reflexivity|]. split; [|reflexivity].
        rewrite Hd. apply set_eq. intros x.
        rewrite !elem_of_difference, !elem_of_union, !elem_of_singleton.
        split; [tauto|]. intros Hx. now apply not_elem_of_empty in Hx.
      - assert (Hc : step s (Click idx) = s).
        { simpl. unfold clickDelete.
          destruct (bool_decide (idx ∈ deletingItems (ui s))); [reflexivity|].
          now destruct (Nat.ltb_spec idx (length (data (ui s)))); [lia|]. }
        rewrite Hc. simpl. unfold timeoutFires. rewrite Ht.
        split; [|split; assumption].
        symmetry. clear -Hge. revert idx Hge.
        induction (data (ui s)) as [|x l IHl]; intros [|idx] Hge; simpl in *;
          try reflexivity; try lia.
        f_equal. apply IHl. lia. }
    destruct Hstep as (Hdata & Hd1 & Ht1).
    destruct (IH _ Ht1 Hd1) as (H1 & H2 & H3).
    rewrite Hdata in H1. auto.
Qed.

(** The first item three times. *)
Lemma deletions_one_by_one_witness :
  data (ui (run (one_by_one [0; 0; 0]) (loaded [itemA; itemB; itemC]))) = [].
Proof.
  exact (proj1 (deletions_one_by_one [0; 0; 0] (loaded [itemA; itemB; itemC])
                  eq_refl eq_refl)).
Defined.

(** ** [updateNestedValue] as an update of the tree *)

Module HeapFurther.
Import Heap.
Import HeapProofs.
Local Open Scope list_scope.

Lemma owns_repr (h : heap) :
  (forall lo hi v t, owns h lo hi v t -> repr h v t) /\
  (forall lo hi vs ts, owns_list h lo hi vs ts -> repr_list h vs ts).
Proof.
  apply owns_mutind.
  - intros n v t Hp. now constructor.
  - intros lo l vs ts Hl _ IH. now apply repr_arr with vs.
  - intros lo l kvs kts Hl Hk _ IH. now apply repr_obj with kvs.
  - intros n. constructor.
  - intros lo mid hi v t vs ts _ IHv _ IHvs. now constructor.
Qed.

Lemma repr_list_length (h : heap) (vs : list val) (ts : list value) :
  repr_list h vs ts -> length vs = length ts.
Proof. induction 1; simpl; congruence. Qed.


Lemma repr_list_pointwise (h : heap) (vs : list val) :
  forall ts,
    length vs = length ts ->
    (forall i v t, vs !! i = Some v -> ts !! i = Some t -> repr h v t) ->
    repr_list h vs ts.
Proof.
  induction vs as [|v vs IH]; intros [|t ts] Hlen Hall; try discriminate.
  - constructor.
  - constructor.
    + exact (Hall 0 v t eq_refl eq_refl).
    + apply IH; [simpl in Hlen; lia|].
      intros i v' t' Hv Ht. exact (Hall (S i) v' t' Hv Ht).
Qed.

Lemma repr_list_insert (h : heap) (vs : list val) (ts : list value) (i : nat)
    (v : val) (t : value) :
  repr_list h vs ts -> repr h v t -> repr_list h (<[i := v]> vs) (<[i := t]> ts).
Proof.
  intros Hl Hv. revert i. induction Hl as [|v0 t0 vs ts Hv0 Hvs IH]; intros i.
  - constructor.
  - destruct i as [|i]; simpl; constructor; auto.
Qed.

Lemma repr_list_app (h : heap) (vs ws : list val) (ts us : list value) :
  repr_list h vs ts -> repr_list h ws us -> repr_list h (vs ++ ws) (ts ++ us).
Proof. induction 1; simpl; [auto | constructor; auto]. Qed.

(** Where [Object_set] puts the value: at the position of the key, or at
    the end under a new key. *)
Lemma Object_set_at {V} (entries : list (string * V)) (k : string) (x : V) :
  match key_index k (map fst entries) with
  | Some j =>
      map fst (Object_set entries k x) = map fst entries /\
      map snd (Object_set entries k x) = <[j := x]> (map snd entries) /\
      j < length entries
  | None =>
      map fst (Object_set entries k x) = map fst entries ++ [k] /\
      map snd (Object_set entries k x) = map snd entries ++ [x]
  end.
Proof.
  induction entries as [|[k' v'] rest IH]; simpl; [split; reflexivity|].
  destruct (String.eqb k' k) eqn:E; simpl.
  - split; [reflexivity|]. split; [reflexivity | lia].
  - destruct (key_index k (map fst rest)) as [j|].
    + destruct IH as (IH1 & IH2 & IH3). simpl.
      rewrite IH1, IH2. split; [reflexivity|]. split; [reflexivity | lia].
    + destruct IH as (IH1 & IH2). rewrite IH1, IH2. split; reflexivity.
Qed.

(** The children of a node after an update below the child at [j]: the
    other children are where they were, out of reach of the update. *)
Lemma repr_list_child_updated (h h2 : heap) (lo l : nat) (vs : list val)
    (ts : list value) (j : nat) (vb : val) (tb tb' : value) (lob hib : nat) :
  length vs = length ts ->
  vs !! j = Some vb ->
  (forall i ta, i <> j -> ts !! i = Some ta ->
     exists va loa hia,
       vs !! i = Some va /\ owns h loa hia va ta /\ lo <= loa /\ hia <= l /\
       (hia <= lob \/ hib <= loa)) ->
  (forall l', l' < lob \/ hib <= l' -> h2 !! l' = h !! l') ->
  repr h2 vb tb' ->
  repr_list h2 vs (<[j := tb']> ts).
Proof.
  intros Hlen Hj Hsib Hframe Hb.
  apply repr_list_pointwise; [now rewrite length_insert|].
  intros i v t Hv Ht.
  destruct (decide (i = j)) as [->|Hne].
  - rewrite list_lookup_insert_eq in Ht
      by (rewrite <- Hlen; now apply lookup_lt_Some in Hj).
    injection Ht as <-. rewrite Hj in Hv. injection Hv as <-. exact Hb.
  - rewrite list_lookup_insert_ne in Ht by congruence.
    destruct (Hsib i t Hne Ht) as (va & loa & hia & Hva & Hoa & ? & ? & Hdis).
    rewrite Hva in Hv. injection Hv as <-.
    apply (proj1 (owns_repr h2) loa hia).
    apply (proj1 (owns_agree h h2) _ _ _ _ Hoa).
    intros l' Hl'. apply Hframe. lia.
Qed.

(** The assignment at the end of a path below a node that owns its cells
    is the update of the tree: the node is afterwards the tree with the
    value assigned at that place. [h0] is a part of the heap below the cells
    of the node in which the assigned value is a tree. *)
Lemma write_refines (ks : list string) :
  forall (h h0 : heap) lo hi ref t parent k v tv,
    owns h lo hi ref t ->
    walk_tree t ks = Some parent ->
    writable parent k ->
    extends h0 h -> length h0 <= lo -> repr h0 v tv ->
    exists r h2 t',
      walk h ref ks = Some r /\ assign h r k v = Some h2 /\
      write_tree t ks k tv = Some t' /\
      repr h2 ref t' /\
      (forall l, l < lo \/ hi <= l -> h2 !! l = h !! l).
Proof.
  assert (Hstable : forall (h h0 h2 : heap) lo hi v tv,
            extends h0 h -> length h0 <= lo -> repr h0 v tv ->
            (forall l, l < lo \/ hi <= l -> h2 !! l = h !! l) ->
            repr h2 v tv).
  { intros h h0 h2 lo hi v tv Hext Hlen Hv Hframe.
    apply (proj1 (repr_extends h0 h2 ltac:(
      intros l c Hl; apply lookup_lt_Some in Hl as Hlt;
      rewrite Hframe by lia; now apply Hext)) v tv Hv). }
  induction ks as [|b ks IH];
    intros h h0 lo hi ref t parent k v tv Ho Hp Hw Hext Hlen0 Hv.
  - simpl in Hp. injection Hp as <-.
    destruct Ho as [n r t Hp|l hi vs ts Hl Hvs|l hi kvs kts Hl Hk Hvs].
    + destruct r; simpl in Hp; try discriminate Hp; injection Hp as <-; contradiction.
    + destruct Hw as (i & Ei & Hi).
      apply owns_list_length in Hvs as Hlen. rewrite <- Hlen in Hi.
      apply (proj2 (owns_le h)) in Hvs as Hle.
      apply lookup_lt_Some in Hl as Hlt.
      assert (Hchildren : forall c, repr_list (<[l := c]> h) vs ts).
      { intros c. apply (proj2 (owns_repr _) (S l) hi).
        apply (proj2 (owns_agree h _) _ _ _ _ Hvs).
        intros l' Hl'. apply list_lookup_insert_ne. lia. }
      assert (Hframe : forall c l', l' < l \/ hi <= l' -> <[l := c]> h !! l' = h !! l').
      { intros c l' Hl'. apply list_lookup_insert_ne. lia. }
      destruct (Nat.ltb_spec i (length vs)) as [Hin|Hout].
      * exists (VRef l), (<[l := CArr (<[i := v]> vs)]> h), (Arr (<[i := tv]> ts)).
        split; [reflexivity|].
        split; [unfold assign; rewrite Hl, Ei;
                now destruct (Nat.ltb_spec i (length vs)); [|lia]|].
        split; [simpl; rewrite Ei;
                now destruct (Nat.ltb_spec i (length ts)); [|lia]|].
        split; [|apply Hframe].
        apply repr_arr with (<[i := v]> vs);
          [now apply list_lookup_insert_eq|].
        apply repr_list_insert; [apply Hchildren|].
        exact (Hstable h h0 _ l hi v tv Hext Hlen0 Hv (Hframe _)).
      * assert (i = length vs) as -> by lia.
        exists (VRef l), (<[l := CArr (vs ++ [v])]> h), (Arr (ts ++ [tv])).
        split; [reflexivity|].
        split; [unfold assign; rewrite Hl, Ei, Nat.eqb_refl;
                now destruct (Nat.ltb_spec (length vs) (length vs)); [lia|]|].
        split; [simpl; rewrite Ei, <- Hlen, Nat.eqb_refl;
                now destruct (Nat.ltb_spec (length vs) (length vs)); [lia|]|].
        split; [|apply Hframe].
        apply repr_arr with (vs ++ [v]);
          [now apply list_lookup_insert_eq|].
        apply repr_list_app; [apply Hchildren|].
        constructor; [|constructor].
        exact (Hstable h h0 _ l hi v tv Hext Hlen0 Hv (Hframe _)).
    + apply (proj2 (owns_le h)) in Hvs as Hle.
      apply lookup_lt_Some in Hl as Hlt.
      assert (Hframe : forall l', l' < l \/ hi <= l' ->
                <[l := CObj (Object_set kvs k v)]> h !! l' = h !! l').
      { intros l' Hl'. apply list_lookup_insert_ne. lia. }
      assert (Hchildren : repr_list (<[l := CObj (Object_set kvs k v)]> h)
                            (map snd kvs) (map snd kts)).
      { apply (proj2 (owns_repr _) (S l) hi).
        apply (proj2 (owns_agree h _) _ _ _ _ Hvs).
        intros l' Hl'. apply list_lookup_insert_ne. lia. }
      pose proof (Hstable h h0 _ l hi v tv Hext Hlen0 Hv Hframe) as Hv2.
      exists (VRef l), (<[l := CObj (Object_set kvs k v)]> h),
        (Obj (Object_set kts k tv)).
      split; [reflexivity|].
      split; [unfold assign; now rewrite Hl|].
      split; [reflexivity|]. split; [|exact Hframe].
      pose proof (Object_set_at kvs k v) as Hs1.
      pose proof (Object_set_at kts k tv) as Hs2.
      rewrite Hk in Hs1.
      apply repr_obj with (Object_set kvs k v);
        [now apply list_lookup_insert_eq| |];
        destruct (key_index k (map fst kts)) as [j|].
      * destruct Hs1 as (-> & _), Hs2 as (-> & _). reflexivity.
      * destruct Hs1 as (-> & _), Hs2 as (-> & _). reflexivity.
      * destruct Hs1 as (_ & -> & _), Hs2 as (_ & -> & _).
        now apply repr_list_insert.
      * destruct Hs1 as (_ & ->), Hs2 as (_ & ->).
        apply repr_list_app; [exact Hchildren|].
        constructor; [exact Hv2 | constructor].
  - simpl in Hp. destruct (get_tree t b) as [tb|] eqn:Eb; [|discriminate].
    destruct Ho as [n r t Hpr|l hi vs ts Hl Hvs|l hi kvs kts Hl Hk Hvs].
    + rewrite (prim_not_node _ _ b Hpr) in Eb. discriminate.
    + simpl in Eb. destruct (index_of_key b) as [j|] eqn:Ej; [|discriminate].
      apply owns_list_length in Hvs as Hlen.
      destruct (owns_list_child _ _ _ _ _ j tb Hvs Eb)
        as (vb & lob & hib & Hvb & Hob & ? & ? & Hsib).
      destruct (IH h h0 lob hib vb tb parent k v tv Hob Hp Hw Hext ltac:(lia) Hv)
        as (r & h2 & tb' & Hwalk & Ha & Hwt & Hrepr & Hframe).
      exists r, h2, (Arr (<[j := tb']> ts)).
      split; [cbn [walk]; unfold get; now rewrite Hl, Ej, Hvb|].
      split; [exact Ha|].
      split.
      { cbn [write_tree]. simpl get_tree. rewrite Ej, Eb, Hwt. simpl.
        rewrite Ej. apply lookup_lt_Some in Eb.
        now destruct (Nat.ltb_spec j (length ts)); [|lia]. }
      split; [|intros l' Hl'; apply Hframe; lia].
      apply repr_arr with vs; [rewrite Hframe by lia; exact Hl|].
      exact (repr_list_child_updated h h2 (S l) hi vs ts j vb tb tb' lob hib
               Hlen Hvb Hsib Hframe Hrepr).
    + simpl in Eb. rewrite assoc_key_index in Eb.
      destruct (key_index b (map fst kts)) as [j|] eqn:Ej; [|discriminate].
      apply owns_list_length in Hvs as Hlen.
      destruct (owns_list_child _ _ _ _ _ j tb Hvs Eb)
        as (vb & lob & hib & Hvb & Hob & ? & ? & Hsib).
      destruct (IH h h0 lob hib vb tb parent k v tv Hob Hp Hw Hext ltac:(lia) Hv)
        as (r & h2 & tb' & Hwalk & Ha & Hwt & Hrepr & Hframe).
      exists r, h2, (Obj (Object_set kts b tb')).
      split; [cbn [walk]; unfold get; now rewrite Hl, assoc_key_index, Hk, Ej, Hvb|].
      split; [exact Ha|].
      split.
      { cbn [write_tree]. simpl get_tree. rewrite assoc_key_index, Ej, Eb, Hwt.
        reflexivity. }
      split; [|intros l' Hl'; apply Hframe; lia].
      pose proof (Object_set_at kts b tb') as Hs. rewrite Ej in Hs.
      destruct Hs as (Hs1 & Hs2 & _).
      apply repr_obj with kvs; [rewrite Hframe by lia; exact Hl| |].
      * now rewrite Hs1.
      * rewrite Hs2.
        exact (repr_list_child_updated h h2 (S l) hi (map snd kvs) (map snd kts)
                 j vb tb tb' lob hib Hlen Hvb Hsib Hframe Hrepr).
Qed.

(** [updateNestedValue] as a whole, for every path, the empty one
    included: the loop follows the item index and the segments but the
    last, and the assignment uses the last segment, or the key [undefined]
    when there is none. *)
Lemma updateNestedValue_refines (h : heap) (prev : val) (t : value)
    (itemIdx : nat) (path : list string) (v : val) (tv parent : value) :
  unshared h prev t ->
  repr h v tv ->
  walk_tree t (index_toString itemIdx :: List.removelast path) = Some parent ->
  writable parent (List.last path "undefined") ->
  exists n, forall fuel, n <= fuel ->
    exists h' next t',
      updateNestedValue fuel itemIdx path v h prev = Some (h', next) /\
      write_tree t (index_toString itemIdx :: List.removelast path)
        (List.last path "undefined") tv = Some t' /\
      repr h' next t' /\
      extends h h'.
Proof.
  intros Hunshared Hv Hparent Hw.
  destruct (structuredClone_owns h prev t Hunshared) as [n Hclone].
  exists n. intros fuel Hfuel.
  destruct (Hclone fuel h Hfuel (fun l c H => H)) as (ext & next & Hc & Ho).
  destruct (write_refines (index_toString itemIdx :: List.removelast path)
              (h ++ ext) h _ _ next t parent (List.last path "undefined") v tv
              Ho Hparent Hw (extends_app h h ext (fun l c H => H)) (le_n _) Hv)
    as (r & h2 & t' & Hwalk & Ha & Hwt & Hr & Hframe).
  exists h2, next, t'.
  split.
  { unfold updateNestedValue. rewrite Hc. cbn [walk] in Hwalk.
    destruct (get (h ++ ext) next (index_toString itemIdx)) as [item|];
      [|discriminate].
    now rewrite Hwalk, Ha. }
  split; [exact Hwt|]. split; [exact Hr|].
  intros l c Hl. apply lookup_lt_Some in Hl as Hlt.
  rewrite Hframe by lia. now apply lookup_app_l_Some.
Qed.

(** *** Reading the updated tree *)

Lemma set_tree_get (t t' : value) (k : string) (x : value) :
  set_tree t k x = Some t' -> get_tree t' k = Some x.
Proof.
  destruct t as [| | | | |elems|entries]; simpl; try discriminate.
  - destruct (index_of_key k) as [i|] eqn:Ei; [|discriminate].
    destruct (Nat.ltb_spec i (length elems)) as [Hlt|Hge].
    + intros [= <-]. simpl. rewrite Ei. now apply list_lookup_insert_eq.
    + destruct (Nat.eqb_spec i (length elems)) as [->|]; [|discriminate].
      intros [= <-]. simpl. rewrite Ei.
      rewrite lookup_app_r by lia. now rewrite Nat.sub_diag.
  - intros [= <-]. simpl. apply assoc_Object_set_eq.
Qed.

Lemma set_tree_get_ne (t t' : value) (k a : string) (x : value) :
  set_tree t k x = Some t' -> a <> k -> get_tree t' a = get_tree t a.
Proof.
  destruct t as [| | | | |elems|entries]; simpl; try discriminate.
  - destruct (index_of_key k) as [i|] eqn:Ei; [|discriminate].
    intros Hs Hne.
    assert (Hother : forall j, index_of_key a = Some j -> j <> i).
    { intros j Ej. exact (index_of_key_ne a k j i Hne Ej Ei). }
    destruct (Nat.ltb_spec i (length elems)) as [Hlt|Hge].
    + injection Hs as <-. simpl. destruct (index_of_key a) as [j|]; [|reflexivity].
      apply list_lookup_insert_ne. apply not_eq_sym. now apply Hother.
    + destruct (Nat.eqb_spec i (length elems)) as [->|]; [|discriminate].
      injection Hs as <-. simpl. destruct (index_of_key a) as [j|]; [|reflexivity].
      specialize (Hother j eq_refl).
      destruct (Nat.lt_ge_cases j (length elems)) as [Hj|Hj].
      * now apply lookup_app_l.
      * rewrite (lookup_ge_None_2 elems j Hj).
        apply lookup_ge_None_2. rewrite length_app. simpl. lia.
  - intros [= <-] Hne. simpl. now apply assoc_Object_set_ne.
Qed.

(** The updated tree reads the value back at the path, and reads as
    before at every place off the path. *)
Lemma write_tree_read (ks : list string) :
  forall t t' k x,
    write_tree t ks k x = Some t' ->
    walk_tree t' (ks ++ [k]) = Some x /\
    forall q, off_path q (ks ++ [k]) -> walk_tree t' q = walk_tree t q.
Proof.
  induction ks as [|b ks IH]; intros t t' k x Hw; simpl in Hw.
  - split.
    + simpl. now rewrite (set_tree_get t t' k x Hw).
    + intros [|a q] Hoff; [now apply off_path_nil in Hoff|].
      apply off_path_last in Hoff. simpl.
      now rewrite (set_tree_get_ne t t' k a x Hw Hoff).
  - destruct (get_tree t b) as [tb|] eqn:Eb; [|discriminate].
    destruct (write_tree tb ks k x) as [tb'|] eqn:Ew; [|discriminate].
    destruct (IH tb tb' k x Ew) as [Hread Hframe].
    split.
    + simpl. now rewrite (set_tree_get t t' b tb' Hw).
    + intros [|a q] Hoff; [now apply off_path_nil in Hoff|]. simpl.
      destruct (String.eqb_spec a b) as [->|Hne].
      * rewrite (set_tree_get t t' b tb' Hw), Eb.
        apply Hframe. now apply off_path_cons_eq in Hoff.
      * now rewrite (set_tree_get_ne t t' b a tb' Hw Hne).
Qed.

(** [updateNestedValue] is the update of the tree. On a document that is
    the tree [t] without sharing, with a value that is the tree [tv], at an
    item index and
    a path (empty or not) whose segments but the last lead to a node that
    can be assigned: with enough fuel for the clone, the new document is a
    tree [t'] that is [t] with [tv] at that place. [t'] reads [tv] there and
    reads as [t] everywhere off the way to it, and the prior document is
    still [t], without sharing. *)
Theorem updateNestedValue_is_tree_update (h : heap) (prev : val) (t : value)
    (itemIdx : nat) (path : list string) (v : val) (tv parent : value) :
  unshared h prev t ->
  repr h v tv ->
  walk_tree t (index_toString itemIdx :: List.removelast path) = Some parent ->
  writable parent (List.last path "undefined") ->
  let place :=
    (index_toString itemIdx :: List.removelast path) ++ [List.last path "undefined"] in
  exists n, forall fuel, n <= fuel ->
    exists h' next t',
      updateNestedValue fuel itemIdx path v h prev = Some (h', next) /\
      repr h' next t' /\
      unshared h' prev t /\
      walk_tree t' place = Some tv /\
      (forall q, off_path q place -> walk_tree t' q = walk_tree t q).
Proof.
  intros Hrepr Hv Hparent Hw place.
  destruct (updateNestedValue_refines h prev t itemIdx path v tv parent
              Hrepr Hv Hparent Hw) as [n Hn].
  exists n. intros fuel Hfuel.
  destruct (Hn fuel Hfuel) as (h' & next & t' & Hu & Hwt & Hr & Hext).
  destruct (write_tree_read _ _ _ _ _ Hwt) as [Hread Hframe].
  exists h', next, t'.
  split; [exact Hu|]. split; [exact Hr|].
  split; [exact (unshared_extends h h' prev t Hext Hrepr)|].
  split; [exact Hread | exact Hframe].
Qed.

(** The document of the examples in memory. *)
Lemma repr_two_items : repr heap_two_items (VRef 3) tree_two_items.
Proof. exact (unshared_repr _ _ _ unshared_two_items). Qed.

Lemma updateNestedValue_is_tree_update_witness :
  unshared heap_two_items (VRef 3) tree_two_items /\
  repr heap_two_items (VStr "z") (Str "z") /\
  walk_tree tree_two_items (index_toString 0 :: List.removelast ["tags"; "2"])
    = Some (Arr [Str "x"; Str "y"]) /\
  writable (Arr [Str "x"; Str "y"]) (List.last ["tags"; "2"] "undefined") /\
  exists n, forall fuel, n <= fuel ->
    exists h' next t',
      updateNestedValue fuel 0 ["tags"; "2"] (VStr "z") heap_two_items (VRef 3)
        = Some (h', next) /\
      repr h' next t' /\
      walk_tree t' [index_toString 0; "tags"; "2"] = Some (Str "z").
Proof.
  assert (Hv : repr heap_two_items (VStr "z") (Str "z")) by now constructor.
  assert (Hp : walk_tree tree_two_items
                 (index_toString 0 :: List.removelast ["tags"; "2"])
               = Some (Arr [Str "x"; Str "y"])) by reflexivity.
  assert (Hw : writable (Arr [Str "x"; Str "y"])
                 (List.last ["tags"; "2"] "undefined")).
  { exists 2. split; [reflexivity | simpl; lia]. }
  split; [exact unshared_two_items|]. split; [exact Hv|].
  split; [exact Hp|]. split; [exact Hw|].
  destruct (updateNestedValue_is_tree_update heap_two_items (VRef 3)
              tree_two_items 0 ["tags"; "2"] (VStr "z") (Str "z")
              (Arr [Str "x"; Str "y"]) unshared_two_items Hv Hp Hw) as [n Hn].
  exists n. intros fuel Hf.
  destruct (Hn fuel Hf) as (h' & next & t' & Hu & Hr & _ & Hread & _).
  exists h', next, t'.
  split; [exact Hu|]. split; [exact Hr | exact Hread].
Defined.

(** *** The empty path *)



(** *** An item that is not there *)

(** A clone only adds cells, and a list is cloned element by element. *)
Lemma clone_list_grows (f : gmap nat nat -> heap -> val
                            -> option (gmap nat nat * heap * val)) :
  (forall m h v m' h' v', f m h v = Some (m', h', v') -> length h <= length h') ->
  forall vs m h m' h' vs',
    clone_list f m h vs = Some (m', h', vs') ->
    length h <= length h' /\ length vs' = length vs.
Proof.
  intros Hf. induction vs as [|v vs IH]; intros m h m' h' vs'; simpl.
  - intros [= _ <- <-]. split; [lia | reflexivity].
  - destruct (f m h v) as [[[m1 h1] v']|] eqn:E1; [|discriminate].
    destruct (clone_list f m1 h1 vs) as [[[m2 h2] rest]|] eqn:E2; [|discriminate].
    intros [= _ <- <-]. apply Hf in E1. destruct (IH _ _ _ _ _ E2) as [Hle Hlen].
    split; [lia | simpl; now rewrite Hlen].
Qed.

Lemma structuredClone_with_grows (fuel : nat) :
  forall (m : gmap nat nat) h v (m' : gmap nat nat) h' v',
    structuredClone_with fuel m h v = Some (m', h', v') -> length h <= length h'.
Proof.
  induction fuel as [|fuel IH]; intros m h v m' h' v';
    destruct v as [| | | | |l]; simpl; try (intros [= _ <- _]; lia);
    destruct (m !! l); try (intros [= _ <- _]; lia); try discriminate.
  destruct (h !! l) as [[elems|entries]|]; [| |discriminate].
  - destruct (clone_list (structuredClone_with fuel) (<[l := length h]> m)
                (h ++ [CArr []]) elems) as [[[m1 h1] elems']|] eqn:E; [|discriminate].
    intros [= _ <- _]. apply (clone_list_grows _ IH) in E as [Hle _].
    rewrite length_insert. rewrite length_app in Hle. simpl in Hle. lia.
  - destruct (clone_list (structuredClone_with fuel) (<[l := length h]> m)
                (h ++ [CObj []]) (map snd entries)) as [[[m1 h1] vs']|] eqn:E;
      [|discriminate].
    intros [= _ <- _]. apply (clone_list_grows _ IH) in E as [Hle _].
    rewrite length_insert. rewrite length_app in Hle. simpl in Hle. lia.
Qed.

(** An edit of an item past the end of the document gives no document,
    whatever the path and the value: the clone has as many items as the
    document, so the item read from it is undefined and the next property
    access throws. *)
Theorem updateNestedValue_no_item (h : heap) (prev : val) (items : list value)
    (itemIdx : nat) (path : list string) (v : val) (fuel : nat) :
  repr h prev (Arr items) ->
  length items <= itemIdx ->
  updateNestedValue fuel itemIdx path v h prev = None.
Proof.
  intros Hrepr Hlen. inversion Hrepr as [v0 t0 Hp|l vs ts Hl Hvs|]; subst.
  { destruct prev; discriminate. }
  apply repr_list_length in Hvs.
  unfold updateNestedValue, structuredClone.
  destruct fuel as [|fuel]; [reflexivity|].
  cbn [structuredClone_with]. rewrite lookup_empty, Hl.
  destruct (clone_list (structuredClone_with fuel) (<[l := length h]> ∅)
              (h ++ [CArr []]) vs) as [[[m' h'] elems']|] eqn:E; [|reflexivity].
  apply (clone_list_grows _ (structuredClone_with_grows fuel)) in E as [Hle Hlen'].
  rewrite length_app in Hle. simpl in Hle.
  unfold get. rewrite list_lookup_insert_eq by lia.
  rewrite index_toString_key.
  now rewrite (lookup_ge_None_2 elems' itemIdx) by lia.
Qed.

Lemma updateNestedValue_no_item_witness :
  repr heap_two_items (VRef 3) tree_two_items /\
  updateNestedValue 5 2 ["name"] (VStr "z") heap_two_items (VRef 3) = None.
Proof.
  split; [exact repr_two_items|].
  apply (updateNestedValue_no_item heap_two_items (VRef 3)
           [Obj [("name", Str "A"); ("tags", Arr [Str "x"; Str "y"])];
            Obj [("name", Str "B")]]
           2 ["name"] (VStr "z") 5 repr_two_items).
  simpl. lia.
Defined.

(** *** The button under an array *)









End HeapFurther.
